(** * Voice-assist command parser ([static/app/utils/voiceAssistParser.ts])

    A shallow embedding of the tokenizer ([normalizeInput]), of the fuzzy
    command matcher ([FuzzyCommand]) and of the dispatcher ([parse]), with
    the properties of the specification stated and proved over it.

    Modelling conventions.
    - A JavaScript string is a sequence of UTF-16 code units.  Transcripts are
      modelled as [string], that is, as sequences of code units in the range
      U+0000..U+00FF, on which [toLowerCase] is a map over the code units.
    - A [Dictionary<boolean>] is an ordinary JavaScript object created by the
      literal [{}]: own properties are kept in a [gmap string bool] and a
      property read that misses them falls through to [Object.prototype].
    - [number] (the confidence) is kept abstract, together with its
      comparison [<]; a theorem that needs an order law of [<] states it as
      a hypothesis, and the examples run on rational confidences. *)

From Stdlib Require Import Ascii String List Bool Arith Lia QArith.
From stdpp Require Import base option list strings gmap.

Local Open Scope string_scope.
Local Open Scope list_scope.

(** ** Strings: the built-ins used by the tokenizer *)

(** [c] as a code unit. *)
Definition code (c : ascii) : nat := nat_of_ascii c.

(** [String.prototype.toLowerCase] on one code unit below U+0100: the
    letters A..Z and the Latin-1 capitals U+00C0..U+00DE (without the
    multiplication sign U+00D7) move up by 32, every other unit stays. *)
Definition lower_char (c : ascii) : ascii :=
  let n := code c in
  if (((65 <=? n) && (n <=? 90))
      || ((192 <=? n) && (n <=? 222) && negb (n =? 215)))%nat
  then ascii_of_nat (n + 32)
  else c.

Fixpoint toLowerCase (s : string) : string :=
  match s with
  | EmptyString => EmptyString
  | String c r => String (lower_char c) (toLowerCase r)
  end.

(** The character class [[ ,;.:]]. *)
Definition is_separator (c : ascii) : bool :=
  (c =? " ")%char || (c =? ",")%char || (c =? ";")%char
  || (c =? ".")%char || (c =? ":")%char.

(** [val.replace(/[ ,;.:]+/g, ' ')].  The scan goes left to right; a match of
    the greedy [+] starts at the first separator met outside a match and
    extends over every separator that follows.  [in_match] tells whether
    the previous character was consumed by the current match: the one
    replacement character is written when the match starts. *)
Fixpoint replace_from (in_match : bool) (val : string) : string :=
  match val with
  | EmptyString => EmptyString
  | String c r =>
      if is_separator c
      then if in_match then replace_from true r
           else String " " (replace_from true r)
      else String c (replace_from false r)
  end.

Definition replace_separators (val : string) : string := replace_from false val.

(** [val.substring(from, to)] for [from <= to]. *)
Definition substring (from to : nat) (val : string) : string :=
  String.substring from (to - from) val.

(** [val[i] === c]: an index out of range reads [undefined], which equals no
    character. *)
Definition char_at_is (val : string) (i : nat) (c : ascii) : bool :=
  match String.get i val with
  | Some d => (d =? c)%char
  | None => false
  end.

(** [val.split(sep)] for a one-character separator: never empty, and the
    empty string splits into one empty token. *)
Fixpoint split (sep : ascii) (val : string) : list string :=
  match val with
  | EmptyString => [EmptyString]
  | String c r =>
      if (c =? sep)%char then EmptyString :: split sep r
      else match split sep r with
           | t :: ts => String c t :: ts
           | [] => [String c EmptyString]
           end
  end.

(** ** The tokenizer *)

Definition normalizeInput (val : string) : list string :=
  let val := toLowerCase val in
  let val := replace_separators val in
  let val :=
    if (0 <? String.length val)%nat && char_at_is val 0 " "
    then substring 1 (String.length val) val else val in
  let val :=
    if (0 <? String.length val)%nat && char_at_is val (String.length val - 1) " "
    then substring 0 (String.length val - 1) val else val in
  split " " val.

(** *** The tokenizer as the specification words it *)

Fixpoint all_separators (s : string) : bool :=
  match s with
  | EmptyString => true
  | String c r => is_separator c && all_separators r
  end.

Definition starts_with_separator (s : string) : bool :=
  match s with
  | EmptyString => false
  | String c _ => is_separator c
  end.

(** [collapsed s t]: [t] is [s] with every maximal run of separators
    replaced by one space, and every other character kept. *)
Inductive collapsed : string → string → Prop :=
  | collapsed_end : collapsed "" ""
  | collapsed_keep (c : ascii) (s t : string) :
      is_separator c = false →
      collapsed s t →
      collapsed (String c s) (String c t)
  | collapsed_run (run s t : string) :
      run ≠ "" →
      all_separators run = true →
      starts_with_separator s = false →
      collapsed s t →
      collapsed (run ++ s) (String " " t).

(** At most one leading space is removed. *)
Definition strip_leading_space (s : string) : string :=
  match s with
  | String c r => if (c =? " ")%char then r else s
  | EmptyString => EmptyString
  end.

(** At most one trailing space is removed. *)
Fixpoint strip_trailing_space (s : string) : string :=
  match s with
  | EmptyString => EmptyString
  | String c EmptyString => if (c =? " ")%char then EmptyString else s
  | String c r => String c (strip_trailing_space r)
  end.

(** White space as JavaScript has it (the productions WhiteSpace and
    LineTerminator) among the code units below U+0100: tab, line feed,
    vertical tab, form feed, carriage return, space, no-break space. *)
Definition is_whitespace (c : ascii) : bool :=
  let n := code c in
  (((9 <=? n) && (n <=? 13)) || (n =? 32) || (n =? 160))%nat.

Fixpoint whitespace_only (s : string) : bool :=
  match s with
  | EmptyString => true
  | String c r => is_whitespace c && whitespace_only r
  end.

(** ** Dictionaries: JavaScript objects used as string sets *)

(** The own properties of an object of type [Dictionary<boolean>]. *)
Abbreviation Dictionary := (gmap string bool).

(** The property names of [Object.prototype], which every object created by
    the literal [{}] inherits.  Each of them holds a function, except
    [__proto__], an accessor that reads as [Object.prototype] itself: all
    of them are truthy. *)
Definition Object_prototype_keys : list string :=
  [ "constructor"; "__defineGetter__"; "__defineSetter__"; "hasOwnProperty";
    "__lookupGetter__"; "__lookupSetter__"; "isPrototypeOf";
    "propertyIsEnumerable"; "toString"; "valueOf"; "__proto__";
    "toLocaleString" ].

Definition inherited (key : string) : bool :=
  bool_decide (key ∈ Object_prototype_keys).

(** The test [if (dict[key])]: the own property when there is one, the
    inherited one otherwise, [undefined] (falsy) when there is none. *)
Definition dict_truthy (dict : Dictionary) (key : string) : bool :=
  match dict !! key with
  | Some b => b
  | None => inherited key
  end.

(** The assignment [dict[key] = true].  It creates or overwrites an own
    property, except for the key [__proto__]: that one reaches the setter of
    [Object.prototype], which ignores a value that is not an object. *)
Definition dict_set_true (dict : Dictionary) (key : string) : Dictionary :=
  if decide (key = "__proto__") then dict else <[key := true]> dict.

(** The two constructor loops: [d = {}; for (...) d[keys[idx]] = true]. *)
Definition dict_of_list (keys : list string) : Dictionary :=
  fold_left dict_set_true keys ∅.

(** ** FuzzyCommand: the configuration *)

Record FuzzyCommand : Type := {
  fc_id : string;
  verbFirst : bool;
  verbs : Dictionary;
  attributes : Dictionary
}.

Definition new_FuzzyCommand
    (id : string) (verbs validAttributes : list string) (verbFirst : bool)
  : FuzzyCommand :=
  {| fc_id := id;
     verbFirst := verbFirst;
     verbs := dict_of_list verbs;
     attributes := dict_of_list validAttributes |}.

(** The loop state of [match]: the local variables [verb] and [args]. *)
Record scan_state : Type := {
  verb : option string;
  args : list string
}.

(** One iteration of the loop of [match] on [token]. *)
Definition match_token (c : FuzzyCommand) (st : scan_state) (token : string)
  : scan_state :=
  let verb' :=
    match verb st with
    | None => if dict_truthy (verbs c) token then Some token else None
    | Some v => Some v
    end in
  let args' :=
    if bool_decide (verb' ≠ None) || negb (verbFirst c)
    then if dict_truthy (attributes c) token then args st ++ [token] else args st
    else args st in
  {| verb := verb'; args := args' |}.

Definition scan (c : FuzzyCommand) (tokens : list string) : scan_state :=
  fold_left (match_token c) tokens {| verb := None; args := [] |}.

(** *** The scan as the specification words it *)

Definition is_verb (c : FuzzyCommand) (token : string) : bool :=
  dict_truthy (verbs c) token.

Definition is_attribute (c : FuzzyCommand) (token : string) : bool :=
  dict_truthy (attributes c) token.

(** The tokens from the first member of the verb set on, that one included. *)
Fixpoint from_first_verb (c : FuzzyCommand) (tokens : list string)
  : list string :=
  match tokens with
  | [] => []
  | t :: ts => if is_verb c t then tokens else from_first_verb c ts
  end.

(** The tokens that are tested against the attribute set. *)
Definition tested (c : FuzzyCommand) (tokens : list string) : list string :=
  if verbFirst c then from_first_verb c tokens else tokens.

Definition collected (c : FuzzyCommand) (tokens : list string) : list string :=
  List.filter (is_attribute c) (tested c tokens).

Section Parser.

(** The type [number] of confidences and its comparison [a < b]. *)
Variable number : Type.
Variable lt : number → number → bool.

Record SpeechRecognitionAlternative : Type := {
  alt_confidence : number;
  alt_transcript : string
}.

Record MatchResult : Type := {
  res_confidence : number;
  res_id : string
}.

(** The interface [Command]: one method, [match]. *)
Record Command : Type := {
  match_ : SpeechRecognitionAlternative → option MatchResult
}.

(** *** FuzzyCommand.match *)

Definition FuzzyCommand_match (c : FuzzyCommand)
    (input : SpeechRecognitionAlternative) : option MatchResult :=
  let tokens := normalizeInput (alt_transcript input) in
  let st := scan c tokens in
  if bool_decide (verb st ≠ None) && (0 <? length (args st))%nat
  then Some {| res_id := fc_id c; res_confidence := alt_confidence input |}
  else None.

(** [FuzzyCommand implements Command]. *)
Definition FuzzyCommand_Command (c : FuzzyCommand) : Command :=
  {| match_ := FuzzyCommand_match c |}.

(** *** parse *)

(** The loop state of [parse]. *)
Record parse_state : Type := {
  highestAlternative : option SpeechRecognitionAlternative;
  highestMatch : option MatchResult
}.

(** One iteration of the inner loop: [alternative] against [command]. *)
Definition parse_command (alternative : SpeechRecognitionAlternative)
    (st : parse_state) (command : Command) : parse_state :=
  match match_ command alternative with
  | Some m =>
      match highestMatch st with
      | None =>
          {| highestMatch := Some m; highestAlternative := Some alternative |}
      | Some hm =>
          if lt (res_confidence hm) (alt_confidence alternative)
          then {| highestMatch := Some m;
                  highestAlternative := Some alternative |}
          else st
      end
  | None => st
  end.

(** One iteration of the outer loop.  After the first [if],
    [highestAlternative] is not null, so the comparison of the second
    [if] reads a confidence. *)
Definition parse_alternative (commands : list Command)
    (st : parse_state) (alternative : SpeechRecognitionAlternative)
  : parse_state :=
  let ha :=
    match highestAlternative st with
    | None => alternative
    | Some a => a
    end in
  let ha :=
    if bool_decide (highestMatch st = None)
       && lt (alt_confidence ha) (alt_confidence alternative)
    then alternative else ha in
  fold_left (parse_command alternative) commands
    {| highestAlternative := Some ha; highestMatch := highestMatch st |}.

Definition parse_init : parse_state :=
  {| highestAlternative := None; highestMatch := None |}.

Definition parse_loop (vals : list SpeechRecognitionAlternative)
    (commands : list Command) : parse_state :=
  fold_left (parse_alternative commands) vals parse_init.

Definition parse (vals : list SpeechRecognitionAlternative)
    (commands : list Command)
  : option MatchResult * option SpeechRecognitionAlternative :=
  let st := parse_loop vals commands in
  (highestMatch st, highestAlternative st).

(** *** The selection as the specification words it *)

(** The matches of one alternative, in the order of the commands. *)
Definition matches_of (commands : list Command)
    (alternative : SpeechRecognitionAlternative)
  : list (MatchResult * SpeechRecognitionAlternative) :=
  flat_map
    (λ command,
       match match_ command alternative with
       | Some m => [(m, alternative)]
       | None => []
       end)
    commands.

(** Every match in the order in which [parse] meets it: alternative by
    alternative and, for each, command by command. *)
Definition match_events (vals : list SpeechRecognitionAlternative)
    (commands : list Command)
  : list (MatchResult * SpeechRecognitionAlternative) :=
  flat_map (matches_of commands) vals.

(** A later match replaces the best one only if the confidence of its
    alternative strictly exceeds the confidence of the best match. *)
Definition adopt (best later : MatchResult * SpeechRecognitionAlternative)
  : MatchResult * SpeechRecognitionAlternative :=
  if lt (res_confidence (fst best)) (alt_confidence (snd later))
  then later else best.

(** The loop state once [best] is the match adopted last. *)
Definition matched (best : MatchResult * SpeechRecognitionAlternative)
  : parse_state :=
  {| highestAlternative := Some (snd best); highestMatch := Some (fst best) |}.

(** What the specification asks of every command: the confidence of a
    result is the confidence of the alternative. *)
Definition copies_confidence (command : Command) : Prop :=
  ∀ a m, match_ command a = Some m → res_confidence m = alt_confidence a.

(** The returned alternative is one of the alternatives, and the returned
    match, when there is one, is what a command answered on it. *)
Definition consistent (vals : list SpeechRecognitionAlternative)
    (commands : list Command) (st : parse_state) : Prop :=
  ∃ a, highestAlternative st = Some a ∧ a ∈ vals
       ∧ ∀ m, highestMatch st = Some m →
              ∃ command, command ∈ commands ∧ match_ command a = Some m.

End Parser.

Arguments alt_confidence {number} _.
Arguments alt_transcript {number} _.
Arguments res_confidence {number} _.
Arguments res_id {number} _.
Arguments match_ {number} _ _.
Arguments FuzzyCommand_match {number} c input.
Arguments FuzzyCommand_Command {number} c.
Arguments highestAlternative {number} _.
Arguments highestMatch {number} _.
Arguments parse_command {number} lt alternative st command.
Arguments parse_alternative {number} lt commands st alternative.
Arguments parse_init {number}.
Arguments parse_loop {number} lt vals commands.
Arguments parse {number} lt vals commands.
Arguments matches_of {number} commands alternative.
Arguments match_events {number} vals commands.
Arguments adopt {number} lt best later.
Arguments matched {number} best.
Arguments consistent {number} vals commands st.
Arguments copies_confidence {number} command.

(** Confidences as rationals, to run the definitions on the examples of the
    specification. *)
Definition Qltb (x y : Q) : bool := negb (Qle_bool y x).

Definition alternative (transcript : string) (confidence : Q)
  : SpeechRecognitionAlternative Q :=
  {| alt_transcript := transcript; alt_confidence := confidence |}.

Definition result (id : string) (confidence : Q) : MatchResult Q :=
  {| res_id := id; res_confidence := confidence |}.

(** [new FuzzyCommand("OPEN", ["open"], ["settings"])], with the default
    [verbFirst = true], and the same command with [verbFirst = false]. *)
Definition open_settings : FuzzyCommand :=
  new_FuzzyCommand "OPEN" ["open"] ["settings"] true.

Definition open_settings_any_order : FuzzyCommand :=
  new_FuzzyCommand "OPEN" ["open"] ["settings"] false.

Definition close_settings : FuzzyCommand :=
  new_FuzzyCommand "CLOSE" ["close"] ["settings"] true.

(** A second command on the words of [open_settings]. *)
Definition show_settings : FuzzyCommand :=
  new_FuzzyCommand "SHOW" ["open"; "show"] ["settings"] true.

(** [new FuzzyCommand("N", [], [])]: a command without verbs and without
    attributes. *)
Definition no_words : FuzzyCommand := new_FuzzyCommand "N" [] [] true.

(** A command whose verbs and attributes both hold the empty string. *)
Definition empty_words : FuzzyCommand :=
  new_FuzzyCommand "EMPTY" [""] [""] true.

(** The alternatives and the commands of the example of the
    specification. *)
Definition two_alternatives : list (SpeechRecognitionAlternative Q) :=
  [alternative "open settings" (4 # 10); alternative "close settings" (9 # 10)].

Definition two_commands : list (Command Q) :=
  [FuzzyCommand_Command open_settings; FuzzyCommand_Command close_settings].

(** The one-character string holding a tab (U+0009). *)
Definition tab : string := String (ascii_of_nat 9) EmptyString.


(** ** Notions used to state further properties of the code *)

(** Every character of [s] passes [p]. *)
Fixpoint string_forall (p : ascii → bool) (s : string) : bool :=
  match s with
  | EmptyString => true
  | String c r => p c && string_forall p r
  end.

(** The characters of [s] that pass [p], in their order. *)
Fixpoint string_filter (p : ascii → bool) (s : string) : string :=
  match s with
  | EmptyString => EmptyString
  | String c r => if p c then String c (string_filter p r) else string_filter p r
  end.

(** A character that [toLowerCase] leaves as it is. *)
Definition is_lower (c : ascii) : bool := (lower_char c =? c)%char.

(** A character a token can hold: no separator, and in lower case. *)
Definition token_char (c : ascii) : bool := negb (is_separator c) && is_lower c.

(** Two characters that differ at most in letter case, or are both
    separators; two texts of the same length made of such characters. *)
Definition same_char (c d : ascii) : bool :=
  (lower_char c =? lower_char d)%char || (is_separator c && is_separator d).

Fixpoint same_text (s t : string) : bool :=
  match s, t with
  | EmptyString, EmptyString => true
  | String c s', String d t' => same_char c d && same_text s' t'
  | _, _ => false
  end.

(** The shape of a string after the replacement: token characters and
    single spaces.  [after_space] tells that the character before was a
    space, so that no space may follow. *)
Fixpoint spaced (after_space : bool) (s : string) : bool :=
  match s with
  | EmptyString => true
  | String c r =>
      if (c =? " ")%char then negb after_space && spaced true r
      else token_char c && spaced false r
  end.

Fixpoint ends_with_space (s : string) : bool :=
  match s with
  | EmptyString => false
  | String c EmptyString => (c =? " ")%char
  | String _ r => ends_with_space r
  end.

(** The loop of [match] reduced to what its result depends on: whether a
    verb was found and whether an argument was collected.  [is_v] and
    [is_a] are the two membership tests. *)
Fixpoint scan_flags (verbFirst : bool) (is_v is_a : string → bool)
    (found collected : bool) (tokens : list string) : bool :=
  match tokens with
  | [] => found && collected
  | t :: ts =>
      let found' := found || is_v t in
      let collected' := collected || ((found' || negb verbFirst) && is_a t) in
      scan_flags verbFirst is_v is_a found' collected' ts
  end.

(** A word that can be equal to a token. *)
Definition token_word (w : string) : bool := string_forall token_char w.

(** ** The feedback list
    ([static/app/components/feedback/useFetchFeedbackInfiniteListData.tsx]) *)

(** [array?.[index]] for a number [index] that is an integer: [undefined]
    below zero and from the length on. *)
Definition array_get {A : Type} (array : list A) (index : Z) : option A :=
  if (0 <=? index)%Z then array !! Z.to_nat index else None.

(** What [loadMoreRows] returns: the promise of [fetchNextPage()], or
    [Promise.resolve()]. *)
Inductive LoadMore : Type :=
  | fetchNextPage
  | Promise_resolve.

Section FeedbackList.

(** An issue of the list (an object, hence truthy), the rest of a page of
    the query (status text and response) and the error of a request. *)
Variables (FeedbackIssue ApiMeta RequestError : Type).

(** One page: the tuple of which [([pageData]) => pageData] reads the first
    component. *)
Definition ApiResult : Type := list FeedbackIssue * ApiMeta.

(** The fields read from the result of [useInfiniteApiQuery];
    [q_data] is [data?.pages], absent while there is no data. *)
Record InfiniteQueryResult : Type := {
  q_data : option (list ApiResult);
  q_error : option RequestError;
  q_hasNextPage : option bool;
  q_isError : bool;
  q_isFetching : bool;
  q_isFetchingNextPage : bool;
  q_isFetchingPreviousPage : bool;
  q_isLoading : bool
}.

Record InfiniteListData : Type := {
  list_error : option RequestError;
  hasNextPage : option bool;
  isError : bool;
  isFetching : bool;
  isFetchingNextPage : bool;
  isFetchingPreviousPage : bool;
  isLoading : bool;
  getRow : Z → option FeedbackIssue;
  isRowLoaded : Z → bool;
  issues : list FeedbackIssue;
  loadMoreRows : Z → Z → LoadMore
}.

Definition EMPTY_INFINITE_LIST_DATA : InfiniteListData :=
  {| list_error := None;
     hasNextPage := Some false;
     isError := false;
     isFetching := false;
     isFetchingNextPage := false;
     isFetchingPreviousPage := false;
     isLoading := false;
     getRow := λ _, None;
     isRowLoaded := λ _, false;
     issues := [];
     loadMoreRows := λ _ _, Promise_resolve |}.

Definition useFetchFeedbackInfiniteListData (query : InfiniteQueryResult)
  : InfiniteListData :=
  let issues :=
    match q_data query with
    | Some pages => flat_map fst pages
    | None => []
    end in
  {| list_error := q_error query;
     hasNextPage := q_hasNextPage query;
     isError := q_isError query;
     isFetching := q_isFetching query;
     isFetchingNextPage := q_isFetchingNextPage query;
     isFetchingPreviousPage := q_isFetchingPreviousPage query;
     isLoading := q_isLoading query;
     getRow := λ index, array_get issues index;
     isRowLoaded := λ index, bool_decide (array_get issues index ≠ None);
     issues := issues;
     loadMoreRows :=
       λ _ _,
         if bool_decide (q_hasNextPage query = Some true)
            && negb (q_isFetching query)
         then fetchNextPage else Promise_resolve |}.

(** The pages that were fetched, each as its list of issues: none while
    there is no data. *)
Definition fetched_pages (query : InfiniteQueryResult)
  : list (list FeedbackIssue) :=
  match q_data query with
  | Some pages => map fst pages
  | None => []
  end.

(** The number of issues on the pages that were fetched. *)
Definition fetched_issues (query : InfiniteQueryResult) : nat :=
  match q_data query with
  | Some pages => sum_list (map (λ page : ApiResult, length (fst page)) pages)
  | None => 0
  end.

End FeedbackList.

Arguments q_data {FeedbackIssue ApiMeta RequestError} _.
Arguments q_isFetching {FeedbackIssue ApiMeta RequestError} _.
Arguments q_hasNextPage {FeedbackIssue ApiMeta RequestError} _.
Arguments getRow {FeedbackIssue RequestError} _ _.
Arguments isRowLoaded {FeedbackIssue RequestError} _ _.
Arguments issues {FeedbackIssue RequestError} _.
Arguments loadMoreRows {FeedbackIssue RequestError} _ _ _.
Arguments EMPTY_INFINITE_LIST_DATA {FeedbackIssue RequestError}.
Arguments useFetchFeedbackInfiniteListData {FeedbackIssue ApiMeta RequestError} query.
Arguments fetched_issues {FeedbackIssue ApiMeta RequestError} query.
Arguments fetched_pages {FeedbackIssue ApiMeta RequestError} query.

(** ** The analytics of a loaded replay ([useLogReplayDataLoaded]) *)

Section ReplayAnalytics.

Variables (Organization Platform RequestError num : Type).

(** [frame.data.projectSlug] of an error frame. *)
Record ErrorFrame : Type := {
  frame_projectSlug : string
}.

(** What the effect reads from the replay reader. *)
Record ReplayReader : Type := {
  getErrorFrames : list ErrorFrame;
  startedAtDelta : num;
  finishedAtDelta : num;
  getReplay_id : string
}.

Record Project : Type := {
  platform : Platform
}.

Record ReplayProps : Type := {
  fetchError : option RequestError;
  fetching : bool;
  projectSlug : option string;
  replay : option ReplayReader
}.

(** The payload of the event [replay.details-data-loaded]. *)
Record DataLoaded : Type := {
  organization : Organization;
  be_errors : nat;
  fe_errors : nat;
  project_platform : Platform;
  replay_errors : nat;
  total_errors : nat;
  started_at_delta : num;
  finished_at_delta : num;
  replay_id : string
}.

(** The hook [useProjectFromSlug], which finds the project of a slug. *)
Variable useProjectFromSlug : Organization → option string → option Project.

(** [frame.data.projectSlug === projectSlug], where [projectSlug] may be
    [null]. *)
Definition same_slug (slug : option string) (frame : ErrorFrame) : bool :=
  bool_decide (Some (frame_projectSlug frame) = slug).

(** One run of the effect: the call of [trackAnalytics] it makes, if any. *)
Definition useLogReplayDataLoaded (org : Organization) (props : ReplayProps)
  : option DataLoaded :=
  let project := useProjectFromSlug org (projectSlug props) in
  if fetching props then None
  else match fetchError props, replay props, project with
       | None, Some replay, Some project =>
           let errorFrames := getErrorFrames replay in
           let feErrors := List.filter (same_slug (projectSlug props)) errorFrames in
           let beErrors :=
             List.filter (λ frame, negb (same_slug (projectSlug props) frame))
               errorFrames in
           Some {| organization := org;
                   be_errors := length beErrors;
                   fe_errors := length feErrors;
                   project_platform := platform project;
                   replay_errors := 0;
                   total_errors := length errorFrames;
                   started_at_delta := startedAtDelta replay;
                   finished_at_delta := finishedAtDelta replay;
                   replay_id := getReplay_id replay |}
       | _, _, _ => None
       end.

End ReplayAnalytics.

Arguments getErrorFrames {num} _.
Arguments fetchError {RequestError num} _.
Arguments fetching {RequestError num} _.
Arguments projectSlug {RequestError num} _.
Arguments replay {RequestError num} _.
Arguments be_errors {Organization Platform num} _.
Arguments fe_errors {Organization Platform num} _.
Arguments replay_errors {Organization Platform num} _.
Arguments total_errors {Organization Platform num} _.
Arguments useLogReplayDataLoaded {Organization Platform RequestError num}
  useProjectFromSlug org props.

(** ** Instances to run the further definitions *)

(** A query with two pages of issues, named by strings. *)
Definition two_pages : InfiniteQueryResult string unit unit :=
  {| q_data := Some [(["issue-1"; "issue-2"], tt); (["issue-3"], tt)];
     q_error := None;
     q_hasNextPage := Some true;
     q_isError := false;
     q_isFetching := false;
     q_isFetchingNextPage := false;
     q_isFetchingPreviousPage := false;
     q_isLoading := false |}.

(** Every slug has a project, of the platform "javascript". *)
Definition any_project (org : unit) (slug : option string)
  : option (Project string) :=
  match slug with
  | Some _ => Some {| platform := "javascript" |}
  | None => None
  end.

(** A loaded replay of the project "web" with three error frames, one of
    them of the project "api". *)
Definition loaded_replay : ReplayProps unit Q :=
  {| fetchError := None;
     fetching := false;
     projectSlug := Some "web";
     replay :=
       Some {| getErrorFrames :=
                 [ {| frame_projectSlug := "web" |};
                   {| frame_projectSlug := "api" |};
                   {| frame_projectSlug := "web" |} ];
               startedAtDelta := 0%Q;
               finishedAtDelta := 0%Q;
               getReplay_id := "replay-1" |} |}.

(** The event tracked for [loaded_replay]. *)
Definition loaded_event : DataLoaded unit string Q :=
  {| organization := tt;
     be_errors := 1;
     fe_errors := 2;
     project_platform := "javascript";
     replay_errors := 0;
     total_errors := 3;
     started_at_delta := 0%Q;
     finished_at_delta := 0%Q;
     replay_id := "replay-1" |}.

(** * Properties *)

(** ** The tokenizer *)

Section Tokenizer.

Lemma lower_char_separator (c : ascii) :
  is_separator (lower_char c) = is_separator c.
Proof. destruct c as [[] [] [] [] [] [] [] []]; reflexivity. Qed.

Lemma all_separators_toLowerCase (s : string) :
  all_separators (toLowerCase s) = all_separators s.
Proof.
  induction s as [|c r IH]; simpl; [reflexivity|].
  now rewrite lower_char_separator, IH.
Qed.

Lemma string_app_cons (x : ascii) (a b : string) :
  (String x a ++ b)%string = String x (a ++ b)%string.
Proof. reflexivity. Qed.

Lemma string_app_assoc (a b c : string) : ((a ++ b) ++ c = a ++ (b ++ c))%string.
Proof.
  induction a as [|x a IH]; [reflexivity|].
  rewrite !string_app_cons. now f_equal.
Qed.

Lemma all_separators_app (a b : string) :
  all_separators (a ++ b)%string = all_separators a && all_separators b.
Proof.
  induction a as [|x a IH]; simpl; [reflexivity|].
  now rewrite IH, andb_assoc.
Qed.

(** The replacement realises the relation of the specification ... *)
Lemma replace_from_collapsed (s : string) :
  collapsed s (replace_from false s)
  ∧ ∀ run, run ≠ "" → all_separators run = true →
      collapsed (run ++ s) (String " " (replace_from true s)).
Proof.
  induction s as [|c r [IH1 IH2]]; simpl.
  - split; [constructor|].
    intros run Hne Hrun. apply collapsed_run; auto. constructor.
  - destruct (is_separator c) eqn:Hc.
    + split.
      * apply (IH2 (String c "")); [discriminate | simpl; now rewrite Hc].
      * intros run Hne Hrun.
        replace (run ++ String c r)%string with ((run ++ String c "") ++ r)%string
          by now rewrite string_app_assoc.
        apply IH2.
        -- destruct run; discriminate.
        -- rewrite all_separators_app, Hrun. simpl. now rewrite Hc.
    + split.
      * now apply collapsed_keep.
      * intros run Hne Hrun. apply collapsed_run; auto.
        now apply collapsed_keep.
Qed.

Lemma replace_from_run (run s : string) :
  all_separators run = true →
  replace_from true (run ++ s) = replace_from true s.
Proof.
  induction run as [|c run IH]; simpl; [reflexivity|].
  intros [Hc Hrun]%andb_true_iff. rewrite Hc. auto.
Qed.

Lemma replace_from_no_separator (s : string) :
  starts_with_separator s = false →
  replace_from true s = replace_from false s.
Proof. destruct s as [|c r]; simpl; [reflexivity|]. now intros ->. Qed.

(** ... and the relation has no other solution. *)
Lemma collapsed_replace (s t : string) :
  collapsed s t ↔ t = replace_separators s.
Proof.
  split.
  - unfold replace_separators.
    induction 1 as [|c s t Hc _ IH|run s t Hne Hrun Hs _ IH]; simpl.
    + reflexivity.
    + now rewrite Hc, IH.
    + destruct run as [|c run]; [contradiction|].
      simpl in *. apply andb_true_iff in Hrun as [Hc Hrun]. rewrite Hc.
      now rewrite replace_from_run, replace_from_no_separator, IH.
  - intros ->. apply replace_from_collapsed.
Qed.

Lemma all_separators_replace (b : bool) (s : string) :
  all_separators (replace_from b s) = all_separators s.
Proof.
  revert b. induction s as [|c r IH]; intros b; simpl; [reflexivity|].
  destruct (is_separator c) eqn:Hc; simpl.
  - destruct b; simpl; now rewrite IH.
  - now rewrite Hc.
Qed.

Lemma substring_all (s : string) : String.substring 0 (String.length s) s = s.
Proof. induction s as [|c r IH]; simpl; [reflexivity | now rewrite IH]. Qed.

(** The first [if] of [normalizeInput]. *)
Lemma strip_leading_space_code (val : string) :
  (if (0 <? String.length val)%nat && char_at_is val 0 " "
   then substring 1 (String.length val) val else val)
  = strip_leading_space val.
Proof.
  destruct val as [|c r]; simpl; [reflexivity|].
  unfold char_at_is, substring. simpl.
  destruct (c =? " ")%char; [|reflexivity].
  rewrite Nat.sub_0_r. apply substring_all.
Qed.

(** The second [if] of [normalizeInput]. *)
Lemma strip_trailing_space_code (val : string) :
  (if (0 <? String.length val)%nat
      && char_at_is val (String.length val - 1) " "
   then substring 0 (String.length val - 1) val else val)
  = strip_trailing_space val.
Proof.
  induction val as [|c r IH]; [reflexivity|].
  destruct r as [|d r'].
  - simpl. unfold char_at_is, substring. simpl.
    destruct (c =? " ")%char; reflexivity.
  - change (strip_trailing_space (String c (String d r')))
      with (String c (strip_trailing_space (String d r'))).
    rewrite <- IH. clear IH.
    unfold char_at_is, substring. cbn [String.length Nat.ltb Nat.leb andb].
    rewrite !Nat.sub_0_r. cbn [Nat.sub]. rewrite !Nat.sub_0_r.
    change (String.get (S (String.length r')) (String c (String d r')))
      with (String.get (String.length r') (String d r')).
    destruct (String.get (String.length r') (String d r')) as [e|];
      [|reflexivity].
    destruct (e =? " ")%char; reflexivity.
Qed.

(** [normalizeInput], step by step as the specification words it. *)
Lemma normalizeInput_steps (val : string) :
  normalizeInput val
  = split " " (strip_trailing_space (strip_leading_space
      (replace_separators (toLowerCase val)))).
Proof.
  unfold normalizeInput.
  now rewrite strip_leading_space_code, strip_trailing_space_code.
Qed.

Lemma all_separators_replaced (s : string) :
  all_separators s = true →
  replace_from true s = "" ∧ (replace_from false s = "" ∨ replace_from false s = " ").
Proof.
  induction s as [|c r IH]; simpl; [auto|].
  intros [Hc Hr]%andb_true_iff. rewrite Hc.
  destruct (IH Hr) as [-> _]. auto.
Qed.

Lemma split_empty_token (s : string) : split " " s = [""] ↔ s = "".
Proof.
  split; [|now intros ->].
  destruct s as [|c r]; [reflexivity|]. simpl.
  destruct (c =? " ")%char.
  - destruct r; simpl; [discriminate|].
    destruct (_ =? _)%char; [discriminate|]. destruct (split _ _); discriminate.
  - destruct (split " " r); discriminate.
Qed.

Lemma strip_trailing_space_empty (s : string) :
  strip_trailing_space s = "" ↔ s = "" ∨ s = " ".
Proof.
  split.
  - destruct s as [|c [|d r]]; simpl; auto.
    + destruct (c =? " ")%char eqn:Hc; [|discriminate].
      apply Ascii.eqb_eq in Hc as ->. auto.
    + discriminate.
  - now intros [-> | ->].
Qed.

Lemma strip_leading_space_short (s : string) :
  strip_leading_space s = "" ∨ strip_leading_space s = " " →
  all_separators s = true.
Proof.
  destruct s as [|c r]; simpl; [reflexivity|].
  destruct (c =? " ")%char eqn:Hc.
  - apply Ascii.eqb_eq in Hc as ->. now intros [-> | ->].
  - intros [H | H]; [discriminate|].
    injection H as -> ->. discriminate.
Qed.

(** Exactly the inputs made of separators only (the empty one among them)
    tokenize to the single empty token. *)
Lemma normalizeInput_empty_token (val : string) :
  normalizeInput val = [""] ↔ all_separators val = true.
Proof.
  rewrite normalizeInput_steps, split_empty_token, strip_trailing_space_empty.
  unfold replace_separators. split.
  - intros H%strip_leading_space_short.
    now rewrite all_separators_replace, all_separators_toLowerCase in H.
  - intros H. rewrite <- all_separators_toLowerCase in H.
    destruct (all_separators_replaced _ H) as [_ [-> | ->]]; auto.
Qed.

(** C4 (as amended).  [normalizeInput] lowercases its input, replaces every
    maximal run of characters from the set space, comma, semicolon,
    period, colon by one space, removes at most one leading and at most
    one trailing space and splits at the single spaces; it returns the
    one-element sequence holding the empty string exactly for the inputs
    that consist of characters of that set only, the empty input among
    them. *)
Theorem normalizeInput_spec (val : string) :
  (∃ t : string,
      collapsed (toLowerCase val) t
      ∧ normalizeInput val
        = split " " (strip_trailing_space (strip_leading_space t)))
  ∧ (normalizeInput val = [""] ↔ all_separators val = true).
Proof.
  split; [|apply normalizeInput_empty_token].
  exists (replace_separators (toLowerCase val)). split.
  - now apply collapsed_replace.
  - apply normalizeInput_steps.
Qed.

End Tokenizer.

(** ** Dictionaries *)

Section Dictionaries.

Lemma dict_fold_lookup (keys : list string) (dict : Dictionary) (key : string) :
  fold_left dict_set_true keys dict !! key
  = if bool_decide (key ∈ keys ∧ key ≠ "__proto__") then Some true
    else dict !! key.
Proof.
  revert dict. induction keys as [|k keys IH]; intros dict; cbn [fold_left].
  - rewrite bool_decide_eq_false_2; [reflexivity|].
    intros [H _]. inversion H.
  - rewrite IH. unfold dict_set_true.
    destruct (decide (key = "__proto__")) as [->|Hkey].
    + rewrite !bool_decide_eq_false_2 by (intros [_ H]; now apply H).
      destruct (decide (k = "__proto__")) as [->|Hk]; [reflexivity|].
      now rewrite lookup_insert_ne.
    + destruct (decide (key ∈ keys)) as [Hin|Hin].
      * rewrite !bool_decide_eq_true_2; auto. split; [now right|auto].
      * rewrite (bool_decide_eq_false_2 (key ∈ keys ∧ _)) by (intros [H _]; auto).
        destruct (decide (k = "__proto__")) as [->|Hk].
        -- rewrite bool_decide_eq_false_2; [reflexivity|].
           intros [[->|H]%elem_of_cons _]; auto.
        -- destruct (decide (k = key)) as [->|Hne].
           ++ rewrite lookup_insert_eq, bool_decide_eq_true_2; [reflexivity|].
              split; [now left|auto].
           ++ rewrite lookup_insert_ne by auto.
              rewrite bool_decide_eq_false_2; [reflexivity|].
              intros [[->|H]%elem_of_cons _]; auto.
Qed.

(** The membership test of a constructed dictionary: the keys given to the
    constructor, and the property names of [Object.prototype]. *)
Lemma dict_truthy_of_list (keys : list string) (key : string) :
  dict_truthy (dict_of_list keys) key = true
  ↔ key ∈ keys ∨ key ∈ Object_prototype_keys.
Proof.
  unfold dict_truthy, dict_of_list. rewrite dict_fold_lookup, lookup_empty.
  unfold inherited. case_bool_decide as H.
  - destruct H as [H _]. split; auto.
  - rewrite bool_decide_eq_true. split; [auto|].
    intros [Hin|Hin]; [|exact Hin].
    destruct (decide (key = "__proto__")) as [->|Hne].
    + apply (bool_decide_unpack _). vm_compute. exact I.
    + exfalso. apply H. auto.
Qed.

Lemma not_inherited_empty : "" ∉ Object_prototype_keys.
Proof.
  intros H. apply (bool_decide_pack _) in H. vm_compute in H. exact H.
Qed.

End Dictionaries.

(** ** FuzzyCommand.match *)

Section FuzzyCommands.

Context {number : Type}.

Implicit Types (c : FuzzyCommand) (a : SpeechRecognitionAlternative number).
Implicit Types (tokens pre post : list string) (st : scan_state).

Lemma scan_state_eta st : {| verb := verb st; args := args st |} = st.
Proof. now destruct st. Qed.

(** The loop of [match] started in any state. *)
Lemma scan_from c tokens st :
  fold_left (match_token c) tokens st
  = match verb st with
    | Some v =>
        {| verb := Some v;
           args := args st ++ List.filter (is_attribute c) tokens |}
    | None =>
        {| verb := List.find (is_verb c) tokens;
           args := args st ++ collected c tokens |}
    end.
Proof.
  revert st. induction tokens as [|t ts IH]; intros [vb ar].
  - unfold collected, tested. destruct vb, (verbFirst c); cbn; now rewrite app_nil_r.
  - cbn [fold_left]. rewrite IH. clear IH.
    unfold match_token, collected, tested, is_verb, is_attribute.
    cbn [verb args].
    destruct vb as [v|], (dict_truthy (verbs c) t) eqn:Ev,
      (verbFirst c) eqn:Ef, (dict_truthy (attributes c) t) eqn:Ea;
      cbn; unfold is_verb; rewrite ?Ev; cbn; rewrite ?Ea;
      now rewrite <- ?app_assoc.
Qed.

Lemma scan_spec c tokens :
  scan c tokens
  = {| verb := List.find (is_verb c) tokens; args := collected c tokens |}.
Proof. unfold scan. now rewrite scan_from. Qed.

Lemma scan_verb_stable c pre post (v : string) :
  verb (scan c pre) = Some v → verb (scan c (pre ++ post)) = Some v.
Proof.
  unfold scan. rewrite fold_left_app. intros H.
  rewrite (scan_from c post), H. reflexivity.
Qed.

Lemma find_is_Some (p : string → bool) tokens :
  (∃ v, List.find p tokens = Some v) ↔ ∃ t, t ∈ tokens ∧ p t = true.
Proof.
  induction tokens as [|t ts IH]; cbn.
  - split; [intros [? [=]] | intros (t & H & _); inversion H].
  - destruct (p t) eqn:Ht.
    + split; [|eauto]. intros _. exists t. split; [left|exact Ht].
    + rewrite IH. split.
      * intros (u & Hu & Hp). exists u. split; [now right|exact Hp].
      * intros (u & [->|Hu]%elem_of_cons & Hp); [congruence|eauto].
Qed.

Lemma filter_not_nil (p : string → bool) tokens :
  List.filter p tokens ≠ [] ↔ ∃ t, t ∈ tokens ∧ p t = true.
Proof.
  induction tokens as [|t ts IH]; cbn.
  - split; [congruence | intros (t & H & _); inversion H].
  - destruct (p t) eqn:Ht.
    + split; [|discriminate]. intros _. exists t. split; [left|exact Ht].
    + rewrite IH. split.
      * intros (u & Hu & Hp). exists u. split; [now right|exact Hp].
      * intros (u & [->|Hu]%elem_of_cons & Hp); [congruence|eauto].
Qed.

Lemma FuzzyCommand_match_unfold c a :
  FuzzyCommand_match c a
  = match List.find (is_verb c) (normalizeInput (alt_transcript a)),
          collected c (normalizeInput (alt_transcript a)) with
    | Some _, _ :: _ =>
        Some {| res_id := fc_id c; res_confidence := alt_confidence a |}
    | _, _ => None
    end.
Proof.
  unfold FuzzyCommand_match. rewrite scan_spec. cbn [verb args].
  destruct (List.find _ _); [|reflexivity].
  rewrite bool_decide_eq_true_2 by discriminate.
  now destruct (collected _ _).
Qed.

(** The scan in terms of the two membership tests of the code:
    [c.match(a)] returns a result exactly when a token of the transcript
    passes the test on [this.verbs] and a tested token passes the test on
    [this.attributes]; the verb is the first token that passes the test,
    and once it is set no later token sets it again.  What the tests
    answer is the matter of [dict_truthy_of_list]. *)
Theorem match_iff_verb_and_attribute c a :
  let tokens := normalizeInput (alt_transcript a) in
  (FuzzyCommand_match c a ≠ None
   ↔ (∃ t, t ∈ tokens ∧ is_verb c t = true)
     ∧ (∃ t, t ∈ tested c tokens ∧ is_attribute c t = true))
  ∧ verb (scan c tokens) = List.find (is_verb c) tokens
  ∧ args (scan c tokens) = List.filter (is_attribute c) (tested c tokens)
  ∧ (∀ pre post v,
       verb (scan c pre) = Some v → verb (scan c (pre ++ post)) = Some v).
Proof.
  intros tokens.
  split; [|split; [|split]]; try (now rewrite scan_spec);
    [|apply scan_verb_stable].
  rewrite FuzzyCommand_match_unfold. fold tokens.
  rewrite <- find_is_Some, <- filter_not_nil. fold (collected c tokens).
  destruct (List.find _ _) as [v|], (collected c tokens) as [|t ts].
  - split; [congruence | now intros [_ H]].
  - split; [|discriminate]. intros _. split; [eauto | discriminate].
  - split; [congruence | now intros [[? [=]] _]].
  - split; [congruence | now intros [[? [=]] _]].
Qed.





Lemma FuzzyCommand_match_Some c a (r : MatchResult number) :
  FuzzyCommand_match c a = Some r →
  r = {| res_id := fc_id c; res_confidence := alt_confidence a |}.
Proof.
  unfold FuzzyCommand_match. destruct (_ && _); [|discriminate].
  now intros [= <-].
Qed.

(** C5.  A result of [c.match(a)] carries the identifier of [c] and the
    confidence of [a]. *)
Theorem match_result_fields c a (r : MatchResult number) :
  FuzzyCommand_match c a = Some r →
  res_id r = fc_id c ∧ res_confidence r = alt_confidence a.
Proof. intros ->%FuzzyCommand_match_Some. split; reflexivity. Qed.

(** C8 (as amended).  On the empty transcript, whose only token is the
    empty string, [match] returns [null] unless the empty string is among
    both the verbs and the attributes the command was constructed with; in
    that one case it returns a match. *)
Theorem match_empty_transcript
    (id : string) (vs attrs : list string) (vf : bool) (conf : number) :
  let c := new_FuzzyCommand id vs attrs vf in
  let a := {| alt_transcript := ""; alt_confidence := conf |} in
  (FuzzyCommand_match c a = None ↔ ¬ ("" ∈ vs ∧ "" ∈ attrs))
  ∧ (FuzzyCommand_match c a ≠ None →
     FuzzyCommand_match c a
     = Some {| res_id := id; res_confidence := conf |}).
Proof.
  intros c a.
  assert (Hv : is_verb c "" = true ↔ "" ∈ vs).
  { unfold is_verb, c. cbn [verbs new_FuzzyCommand].
    rewrite dict_truthy_of_list. pose proof not_inherited_empty. tauto. }
  assert (Ha : is_attribute c "" = true ↔ "" ∈ attrs).
  { unfold is_attribute, c. cbn [attributes new_FuzzyCommand].
    rewrite dict_truthy_of_list. pose proof not_inherited_empty. tauto. }
  assert (Hm : FuzzyCommand_match c a
               = if is_verb c "" && is_attribute c ""
                 then Some {| res_id := id; res_confidence := conf |}
                 else None).
  { rewrite FuzzyCommand_match_unfold.
    change (normalizeInput (alt_transcript a)) with [""].
    unfold collected, tested. cbn [List.find List.filter from_first_verb].
    destruct (is_verb c "") eqn:E1, (is_attribute c "") eqn:E2, (verbFirst c);
      cbn; rewrite ?E1, ?E2; reflexivity. }
  rewrite Hm, <- Hv, <- Ha. clear Hm Hv Ha.
  destruct (is_verb c ""), (is_attribute c ""); cbn;
    (split; [split|congruence]);
    solve [ discriminate | reflexivity
          | intros H; exfalso; apply H; auto
          | intros _ [? ?]; discriminate ].
Qed.

End FuzzyCommands.

(** ** parse *)

Section ParserProperties.

Context {number : Type} (lt : number → number → bool).

Implicit Types (alt a : SpeechRecognitionAlternative number).
Implicit Types (m : MatchResult number) (command : Command number).
Implicit Types (vals : list (SpeechRecognitionAlternative number)).
Implicit Types (commands : list (Command number)).
Implicit Types (st : parse_state number).
Implicit Types
  (best e : MatchResult number * SpeechRecognitionAlternative number).

(** *** The loops in terms of the matches met *)

Lemma parse_command_matched alt best command :
  parse_command lt alt (matched best) command
  = matched (fold_left (adopt lt) (matches_of [command] alt) best).
Proof.
  unfold parse_command, matches_of. cbn [flat_map].
  destruct (match_ command alt) as [m|]; cbn; [|reflexivity].
  unfold adopt. cbn. now destruct (lt _ _).
Qed.

Lemma matches_of_cons command commands alt :
  matches_of (command :: commands) alt
  = matches_of [command] alt ++ matches_of commands alt.
Proof. unfold matches_of. cbn [flat_map]. now rewrite app_nil_r. Qed.

Lemma inner_matched alt commands best :
  fold_left (parse_command lt alt) commands (matched best)
  = matched (fold_left (adopt lt) (matches_of commands alt) best).
Proof.
  revert best. induction commands as [|command commands IH]; intros best.
  - reflexivity.
  - cbn [fold_left].
    now rewrite matches_of_cons, fold_left_app, parse_command_matched, IH.
Qed.

Lemma inner_unmatched alt commands st :
  highestMatch st = None →
  fold_left (parse_command lt alt) commands st
  = match matches_of commands alt with
    | [] => st
    | e :: rest => matched (fold_left (adopt lt) rest e)
    end.
Proof.
  revert st. induction commands as [|command commands IH]; intros st Hst.
  - reflexivity.
  - cbn [fold_left]. rewrite matches_of_cons.
    unfold parse_command at 2. unfold matches_of at 1. cbn [flat_map].
    destruct (match_ command alt) as [m|]; cbn [app].
    + rewrite Hst. apply (inner_matched alt commands (m, alt)).
    + now apply IH.
Qed.

Lemma parse_alternative_matched commands best alt :
  parse_alternative lt commands (matched best) alt
  = matched (fold_left (adopt lt) (matches_of commands alt) best).
Proof. unfold parse_alternative. cbn. apply inner_matched. Qed.

Lemma loop_matched commands vals best :
  fold_left (parse_alternative lt commands) vals (matched best)
  = matched (fold_left (adopt lt) (match_events vals commands) best).
Proof.
  revert best. induction vals as [|alt vals IH]; intros best.
  - reflexivity.
  - cbn [fold_left]. rewrite parse_alternative_matched, IH.
    unfold match_events. cbn [flat_map]. now rewrite fold_left_app.
Qed.

(** The state handed to the inner loop has no match when the state before
    the alternative has none. *)
Lemma parse_alternative_unmatched commands st alt :
  highestMatch st = None →
  parse_alternative lt commands st alt
  = match matches_of commands alt with
    | [] => parse_alternative lt [] st alt
    | e :: rest => matched (fold_left (adopt lt) rest e)
    end.
Proof.
  intros Hst. unfold parse_alternative at 1.
  rewrite inner_unmatched by exact Hst. reflexivity.
Qed.

Lemma parse_alternative_nil_unmatched st alt :
  highestMatch st = None →
  highestMatch (parse_alternative lt [] st alt) = None.
Proof. intros Hst. exact Hst. Qed.

Lemma loop_unmatched commands vals st e rest :
  highestMatch st = None →
  match_events vals commands = e :: rest →
  fold_left (parse_alternative lt commands) vals st
  = matched (fold_left (adopt lt) rest e).
Proof.
  revert st. induction vals as [|alt vals IH]; intros st Hst Hev.
  - discriminate.
  - cbn [fold_left]. rewrite parse_alternative_unmatched by exact Hst.
    unfold match_events in Hev. cbn [flat_map] in Hev.
    destruct (matches_of commands alt) as [|e1 rest1].
    + apply IH; [now apply parse_alternative_nil_unmatched | exact Hev].
    + injection Hev as -> <-.
      now rewrite loop_matched, fold_left_app.
Qed.

Lemma loop_no_match commands vals st :
  highestMatch st = None →
  match_events vals commands = [] →
  highestMatch (fold_left (parse_alternative lt commands) vals st) = None.
Proof.
  revert st. induction vals as [|alt vals IH]; intros st Hst Hev.
  - exact Hst.
  - cbn [fold_left]. unfold match_events in Hev. cbn [flat_map] in Hev.
    apply app_eq_nil in Hev as [H1 H2]. apply IH; [|exact H2].
    rewrite parse_alternative_unmatched, H1 by exact Hst. exact Hst.
Qed.

Lemma adopt_not_better best rest :
  Forall (λ e, lt (res_confidence (fst best)) (alt_confidence (snd e)) = false)
    rest →
  fold_left (adopt lt) rest best = best.
Proof.
  induction 1 as [|e rest He _ IH]; [reflexivity|].
  cbn [fold_left]. unfold adopt at 2. now rewrite He.
Qed.

(** C1.  When the matches that [parse] meets are [first :: rest], in the
    order of the scan, the result is [first] improved by each later match
    whose alternative has a strictly greater confidence than the best match
    so far ([adopt]); the result carries the match and its alternative
    together.  A later match of equal confidence never replaces the best
    one: when every later match has the confidence of the first match, the
    first match is returned. *)
Theorem parse_first_match_then_strictly_better vals commands first rest :
  (∀ x : number, lt x x = false) →
  match_events vals commands = first :: rest →
  let best := fold_left (adopt lt) rest first in
  parse lt vals commands = (Some (fst best), Some (snd best))
  ∧ (∀ best later,
       alt_confidence (snd later) = res_confidence (fst best) →
       adopt lt best later = best)
  ∧ (Forall (λ e, alt_confidence (snd e) = res_confidence (fst first)) rest →
     parse lt vals commands = (Some (fst first), Some (snd first))).
Proof.
  intros Hirr Hev best.
  assert (Hparse : parse lt vals commands = (Some (fst best), Some (snd best))).
  { unfold parse, parse_loop.
    now rewrite (loop_unmatched commands vals parse_init first rest). }
  split; [exact Hparse|]. split.
  - intros b l Heq. unfold adopt. now rewrite Heq, Hirr.
  - intros Hties. rewrite Hparse. unfold best.
    rewrite adopt_not_better; [reflexivity|].
    eapply Forall_impl; [exact Hties|].
    intros e He. cbn in He. now rewrite He, Hirr.
Qed.

(** *** No commands: the running maximum *)

Lemma no_commands_loop vals :
  (∀ x y z : number, lt x y = true → lt y z = true → lt x z = true) →
  (∀ x y z : number, lt x z = true → lt x y = true ∨ lt y z = true) →
  vals ≠ [] →
  ∃ pre a post,
    vals = pre ++ a :: post
    ∧ parse_loop lt vals []
      = {| highestAlternative := Some a; highestMatch := None |}
    ∧ Forall (λ b, lt (alt_confidence b) (alt_confidence a) = true) pre
    ∧ Forall (λ b, lt (alt_confidence a) (alt_confidence b) = false) post.
Proof.
  intros Htrans Hneg.
  induction vals as [|x l IH] using rev_ind; [congruence|]. intros _.
  unfold parse_loop. rewrite fold_left_app. cbn [fold_left].
  destruct l as [|y l'] eqn:El.
  - exists [], x, []. cbn. unfold parse_alternative. cbn.
    repeat split; auto. now destruct (lt _ _).
  - assert (Hl : l ≠ []) by (rewrite El; discriminate).
    rewrite <- El in *. clear El y l'.
    destruct (IH Hl) as (pre & a & post & -> & Hloop & Hpre & Hpost).
    unfold parse_loop in Hloop. rewrite Hloop.
    unfold parse_alternative. cbn.
    destruct (lt (alt_confidence a) (alt_confidence x)) eqn:Hax.
    + exists (pre ++ a :: post), x, []. repeat split; auto.
      apply Forall_app. split; [|constructor].
      * eapply Forall_impl; [exact Hpre|]. cbn. intros b Hb.
        now apply (Htrans _ (alt_confidence a)).
      * exact Hax.
      * eapply Forall_impl; [exact Hpost|]. cbn. intros b Hb.
        destruct (Hneg _ (alt_confidence b) _ Hax) as [H|H]; congruence.
    + exists pre, a, (post ++ [x]). repeat split; auto.
      * now rewrite <- app_assoc.
      * apply Forall_app. split; [exact Hpost|]. now constructor.
Qed.

(** C6.  Without alternatives [parse] returns [(null, null)], whatever the
    commands.  Without commands, and with at least one alternative, it
    returns [(null, a)] where no alternative has a greater confidence than
    [a] and every alternative before [a] has a smaller one: [a] is the
    first alternative of the highest confidence. *)
Theorem parse_empty_inputs :
  (∀ x : number, lt x x = false) →
  (∀ x y z : number, lt x y = true → lt y z = true → lt x z = true) →
  (∀ x y z : number, lt x z = true → lt x y = true ∨ lt y z = true) →
  (∀ commands, parse lt [] commands = (None, None))
  ∧ (∀ vals, vals ≠ [] →
       ∃ pre a post,
         vals = pre ++ a :: post
         ∧ parse lt vals [] = (None, Some a)
         ∧ (∀ b, b ∈ vals → lt (alt_confidence a) (alt_confidence b) = false)
         ∧ (∀ b, b ∈ pre → lt (alt_confidence b) (alt_confidence a) = true)).
Proof.
  intros Hirr Htrans Hneg. split; [reflexivity|].
  intros vals Hvals.
  destruct (no_commands_loop vals Htrans Hneg Hvals)
    as (pre & a & post & -> & Hloop & Hpre & Hpost).
  exists pre, a, post. split; [reflexivity|]. split; [|split].
  - unfold parse. now rewrite Hloop.
  - rewrite Forall_forall in Hpre, Hpost.
    intros b [Hb|[->|Hb]%elem_of_cons]%elem_of_app; auto.
    destruct (lt (alt_confidence a) (alt_confidence b)) eqn:Hab; [|reflexivity].
    rewrite <- (Hirr (alt_confidence b)). symmetry.
    apply (Htrans _ (alt_confidence a)); auto.
  - now rewrite Forall_forall in Hpre.
Qed.

(** *** What the loop keeps true *)

Lemma inner_consistent vals commands alt (cs : list (Command number)) st :
  alt ∈ vals → (∀ command, command ∈ cs → command ∈ commands) →
  consistent vals commands st →
  consistent vals commands (fold_left (parse_command lt alt) cs st).
Proof.
  intros Halt. revert st.
  induction cs as [|command cs IH]; intros st Hcs Hst; [exact Hst|].
  cbn [fold_left]. apply IH; [intros ? ?; apply Hcs; now right|].
  assert (Hnew : ∀ m, match_ command alt = Some m →
            consistent vals commands
              {| highestAlternative := Some alt; highestMatch := Some m |}).
  { intros m Hm. exists alt. cbn. repeat split; auto.
    intros ? [= <-]. exists command. split; [apply Hcs; left | exact Hm]. }
  unfold parse_command.
  destruct (match_ command alt) as [m|]; [|exact Hst].
  destruct (highestMatch st) as [hm|]; [|now apply Hnew].
  destruct (lt _ _); [now apply Hnew | exact Hst].
Qed.

Lemma parse_loop_consistent vals commands :
  vals ≠ [] → consistent vals commands (parse_loop lt vals commands).
Proof.
  induction vals as [|x l IH] using rev_ind; [congruence|]. intros _.
  unfold parse_loop. rewrite fold_left_app. cbn [fold_left].
  fold (parse_loop lt l commands). unfold parse_alternative.
  apply inner_consistent; [apply elem_of_app; right; left | auto |].
  destruct l as [|y l'] eqn:El.
  - exists x. cbn. repeat split; [now destruct (lt _ _) | left | discriminate].
  - assert (Hl : l ≠ []) by (rewrite El; discriminate).
    rewrite <- El in *. clear El y l'.
    destruct (IH Hl) as (a & Ha & Hin & Hm).
    rewrite Ha. cbn [highestAlternative highestMatch].
    destruct (highestMatch (parse_loop lt l commands)) as [m|] eqn:Hhm.
    + exists a. cbn. repeat split; [apply elem_of_app; now left | exact Hm].
    + cbn. destruct (lt _ _).
      * exists x. cbn. repeat split; [|discriminate].
        apply elem_of_app; right; left.
      * exists a. cbn. repeat split; [|discriminate].
        apply elem_of_app; now left.
Qed.

(** C10.  With at least one alternative the second component of the
    result is one of the alternatives, never [null]; when the first
    component is a match, it is the answer of one of the commands on that
    very alternative, so that its confidence is the confidence of the
    returned alternative as soon as the commands copy the confidence as
    [FuzzyCommand] does. *)
Theorem parse_result_consistent vals commands :
  vals ≠ [] →
  ∃ a, snd (parse lt vals commands) = Some a
       ∧ a ∈ vals
       ∧ ∀ m, fst (parse lt vals commands) = Some m →
              (∃ command, command ∈ commands ∧ match_ command a = Some m)
              ∧ (Forall copies_confidence commands →
                 res_confidence m = alt_confidence a).
Proof.
  intros Hvals.
  destruct (parse_loop_consistent vals commands Hvals) as (a & Ha & Hin & Hm).
  exists a. cbn. repeat split; auto.
  intros Hcopy. destruct (Hm m H) as (command & Hc & Hmatch).
  rewrite Forall_forall in Hcopy. now apply (Hcopy command Hc).
Qed.

Lemma FuzzyCommand_copies_confidence (c : FuzzyCommand) :
  copies_confidence (FuzzyCommand_Command (number := number) c).
Proof. intros a m Hm. now apply FuzzyCommand_match_Some in Hm as ->. Qed.

(** *** After the first match *)

Lemma parse_loop_matched vals commands m :
  highestMatch (parse_loop lt vals commands) = Some m →
  ∃ a, parse_loop lt vals commands = matched (m, a).
Proof.
  intros Hm. destruct vals as [|x l]; [discriminate|].
  destruct (parse_loop_consistent (x :: l) commands) as (a & Ha & _);
    [discriminate|].
  exists a. destruct (parse_loop lt (x :: l) commands) as [ha hm].
  cbn in *. now subst.
Qed.

Lemma inner_dichotomy alt commands st :
  highestMatch st ≠ None →
  let st' := fold_left (parse_command lt alt) commands st in
  st' = st
  ∨ ∃ command m,
      command ∈ commands ∧ match_ command alt = Some m
      ∧ st' = {| highestAlternative := Some alt; highestMatch := Some m |}.
Proof.
  revert st. induction commands as [|command commands IH]; intros st Hst;
    [now left|].
  cbn [fold_left].
  assert (Hstep : parse_command lt alt st command = st
            ∨ ∃ m, match_ command alt = Some m
                   ∧ parse_command lt alt st command
                     = {| highestAlternative := Some alt;
                          highestMatch := Some m |}).
  { unfold parse_command. destruct (match_ command alt) as [m|]; [|now left].
    destruct (highestMatch st); [|congruence].
    destruct (lt _ _); [right; eauto | now left]. }
  destruct Hstep as [Heq | (m & Hm & Heq)]; rewrite Heq.
  - destruct (IH st Hst) as [H | (c' & m' & Hin & Hm' & H)]; [now left|].
    right. exists c', m'. repeat split; auto. now right.
  - destruct (IH {| highestAlternative := Some alt; highestMatch := Some m |})
      as [H | (c' & m' & Hin & Hm' & H)]; [discriminate| |].
    + right. exists command, m. repeat split; auto. left.
    + right. exists c', m'. repeat split; auto. now right.
Qed.

(** C7.  Once the alternatives [pre] have produced a match, the iteration
    on a further alternative [alt] either leaves the state as it is or sets
    the match and the alternative together, to the answer of a command on
    [alt] and to [alt]; so an alternative that no command matches changes
    nothing, and removing it from the input does not change the result. *)
Theorem unmatched_alternative_inert pre alt commands :
  fst (parse lt pre commands) ≠ None →
  let st := parse_loop lt pre commands in
  let st' := parse_alternative lt commands st alt in
  (st' = st
   ∨ ∃ command m,
       command ∈ commands ∧ match_ command alt = Some m
       ∧ st' = {| highestAlternative := Some alt; highestMatch := Some m |})
  ∧ ((∀ command, command ∈ commands → match_ command alt = None) →
     st' = st
     ∧ ∀ post, parse lt (pre ++ alt :: post) commands
               = parse lt (pre ++ post) commands).
Proof.
  intros Hm st st'. unfold parse in Hm. cbn [fst] in Hm. fold st in Hm.
  assert (Hdich : st' = st
            ∨ ∃ command m,
                command ∈ commands ∧ match_ command alt = Some m
                ∧ st' = {| highestAlternative := Some alt;
                           highestMatch := Some m |}).
  { destruct (highestMatch st) as [m|] eqn:Hst; [|congruence].
    destruct (parse_loop_matched pre commands m Hst) as [a Ha].
    unfold st', st, parse_alternative. rewrite Ha. cbn.
    apply (inner_dichotomy alt commands (matched (m, a))). discriminate. }
  split; [exact Hdich|].
  intros Hnone.
  assert (Hsame : st' = st).
  { destruct Hdich as [H | (command & m & Hin & Hcm & _)]; [exact H|].
    rewrite Hnone in Hcm by exact Hin. discriminate. }
  split; [exact Hsame|].
  intros post. unfold parse, parse_loop.
  rewrite !fold_left_app. cbn [fold_left].
  fold (parse_loop lt pre commands). fold st. fold st'. now rewrite Hsame.
Qed.

End ParserProperties.

(** * Further properties of the code *)

(** ** The tokens of [normalizeInput] *)

Section TokenShape.

Implicit Types (s t r : string) (b : bool) (c : ascii).

Lemma lower_char_idem c : lower_char (lower_char c) = lower_char c.
Proof. destruct c as [[] [] [] [] [] [] [] []]; reflexivity. Qed.

Lemma toLowerCase_idem s : toLowerCase (toLowerCase s) = toLowerCase s.
Proof.
  induction s as [|c r IH]; cbn; [reflexivity|].
  now rewrite lower_char_idem, IH.
Qed.

Lemma separator_not_space c : is_separator c = false → (c =? " ")%char = false.
Proof. unfold is_separator. now destruct (c =? " ")%char. Qed.

Lemma space_is_separator c : (c =? " ")%char = true → is_separator c = true.
Proof. unfold is_separator. now intros ->. Qed.

Lemma replace_spaced b s : spaced b (replace_from b (toLowerCase s)) = true.
Proof.
  revert b. induction s as [|c r IH]; intros b; cbn; [reflexivity|].
  rewrite lower_char_separator.
  destruct (is_separator c) eqn:Hc.
  - destruct b; cbn; [apply IH|]. apply IH.
  - cbn. rewrite separator_not_space by now rewrite lower_char_separator.
    unfold token_char, is_lower.
    rewrite lower_char_separator, Hc, lower_char_idem, Ascii.eqb_refl.
    cbn. apply IH.
Qed.

Lemma spaced_weaken b s : spaced b s = true → spaced false s = true.
Proof.
  destruct s as [|c r]; cbn; [reflexivity|].
  destruct (c =? " ")%char; [|auto]. now destruct b.
Qed.

Lemma strip_leading_spaced s :
  spaced false s = true → spaced true (strip_leading_space s) = true.
Proof.
  destruct s as [|c r]; cbn; [reflexivity|].
  destruct (c =? " ")%char eqn:Hc; cbn; [auto|]. now rewrite Hc.
Qed.

Lemma strip_trailing_spaced b s :
  spaced b s = true →
  spaced b (strip_trailing_space s) = true
  ∧ ends_with_space (strip_trailing_space s) = false.
Proof.
  revert b. induction s as [|c r IH]; intros b; [auto|].
  destruct r as [|d r'].
  - cbn. destruct (c =? " ")%char eqn:Hc; cbn; rewrite ?Hc; auto.
  - change (strip_trailing_space (String c (String d r')))
      with (String c (strip_trailing_space (String d r'))).
    set (r := String d r') in *.
    cbn [spaced]. intros H.
    assert (Hr : ∃ b', spaced b' r = true
                       ∧ ((c =? " ")%char = true → b' = true)
                       ∧ ∀ r', spaced b' r' = true →
                               spaced b (String c r') = true).
    { destruct (c =? " ")%char eqn:Hc.
      - apply andb_true_iff in H as [H1 H2]. exists true.
        split; [exact H2|]. split; [reflexivity|].
        intros r0 H0. cbn. now rewrite Hc, H1, H0.
      - apply andb_true_iff in H as [H1 H2]. exists false.
        split; [exact H2|]. split; [discriminate|].
        intros r0 H0. cbn. now rewrite Hc, H1, H0. }
    destruct Hr as (b' & Hb' & Hsp & Hcons).
    destruct (IH b' Hb') as [IH1 IH2]. split; [now apply Hcons|].
    destruct (strip_trailing_space r) as [|e r0] eqn:Hs; [|exact IH2].
    cbn. destruct (c =? " ")%char eqn:Hc; [|reflexivity].
    (* [r] is a single space after a space *)
    exfalso. rewrite (Hsp eq_refl) in Hb'.
    unfold r in Hs, Hb'. destruct r' as [|e r'']; cbn in Hs.
    + destruct (d =? " ")%char eqn:Hd; [|discriminate].
      cbn in Hb'. now rewrite Hd in Hb'.
    + discriminate.
Qed.

(** The string that [normalizeInput] splits. *)
Lemma stripped_shape s :
  let t := strip_trailing_space (strip_leading_space
             (replace_separators (toLowerCase s))) in
  spaced true t = true ∧ ends_with_space t = false.
Proof.
  cbn. apply strip_trailing_spaced, strip_leading_spaced.
  unfold replace_separators. apply replace_spaced.
Qed.

Lemma split_not_nil (sep : ascii) s : split sep s ≠ [].
Proof.
  destruct s as [|c r]; cbn; [discriminate|].
  destruct (c =? sep)%char; [discriminate|]. now destruct (split sep r).
Qed.

Lemma split_cons (sep : ascii) s : ∃ tok rest, split sep s = tok :: rest.
Proof.
  pose proof (split_not_nil sep s). destruct (split sep s); [congruence|eauto].
Qed.

Lemma ends_with_space_cons c r :
  r ≠ "" → ends_with_space (String c r) = ends_with_space r.
Proof. now destruct r. Qed.

(** The tokens of a string of that shape. *)
Lemma split_spaced b s :
  spaced b s = true → ends_with_space s = false →
  ∃ tok rest,
    split " " s = tok :: rest
    ∧ Forall (λ t, t ≠ "" ∧ string_forall token_char t = true) rest
    ∧ string_forall token_char tok = true
    ∧ (b = true → s ≠ "" → tok ≠ "").
Proof.
  revert b. induction s as [|c r IH]; intros b Hsp Hend.
  - exists "", []. split; [reflexivity|]. split; [constructor|].
    split; [reflexivity|]. intros _ H. now destruct H.
  - cbn [spaced] in Hsp. cbn [split].
    destruct (c =? " ")%char eqn:Hc.
    + apply andb_true_iff in Hsp as [Hb Hr].
      apply negb_true_iff in Hb as ->.
      assert (Hne : r ≠ "").
      { intros ->. cbn in Hend. congruence. }
      rewrite ends_with_space_cons in Hend by exact Hne.
      destruct (IH true Hr Hend) as (tok & rest & Hs & Hrest & Htok & Hhead).
      exists "", (tok :: rest). rewrite Hs. split; [reflexivity|].
      split; [|split; [reflexivity | discriminate]].
      constructor; [|exact Hrest]. split; [now apply Hhead | exact Htok].
    + apply andb_true_iff in Hsp as [Hcc Hr].
      assert (Hend' : ends_with_space r = false).
      { destruct r; [reflexivity|]. now rewrite ends_with_space_cons in Hend. }
      destruct (IH false Hr Hend') as (tok & rest & Hs & Hrest & Htok & _).
      exists (String c tok), rest. rewrite Hs. split; [reflexivity|].
      split; [exact Hrest|]. split; [|discriminate].
      cbn. now rewrite Hcc, Htok.
Qed.

Lemma normalizeInput_shape s :
  ∃ tok rest,
    normalizeInput s = tok :: rest
    ∧ Forall (λ t, t ≠ "" ∧ string_forall token_char t = true) rest
    ∧ string_forall token_char tok = true
    ∧ (tok = "" → rest = []).
Proof.
  rewrite normalizeInput_steps.
  destruct (stripped_shape s) as [Hsp Hend].
  destruct (split_spaced true _ Hsp Hend) as (tok & rest & Hs & Hrest & Htok & Hhead).
  exists tok, rest. split; [exact Hs|]. split; [exact Hrest|].
  split; [exact Htok|].
  intros ->. destruct (strip_trailing_space _) as [|c r] eqn:Ht.
  - cbn in Hs. now injection Hs as <-.
  - exfalso. now apply Hhead.
Qed.

(** X1.  Every token that [normalizeInput] returns is free of the five
    separator characters and is in lower case: no character of it is
    changed by [toLowerCase]. *)
Theorem normalizeInput_token_chars s t :
  t ∈ normalizeInput s →
  string_forall (λ c, negb (is_separator c) && (lower_char c =? c)%char) t
  = true.
Proof.
  destruct (normalizeInput_shape s) as (tok & rest & -> & Hrest & Htok & _).
  intros [->|Hin]%elem_of_cons; [exact Htok|].
  rewrite Forall_forall in Hrest. now apply Hrest.
Qed.

(** X2.  [normalizeInput] always returns at least one token, and an empty
    token only as the single token of an input made of separators: for any
    other input every token has at least one character. *)
Theorem normalizeInput_no_empty_token s :
  normalizeInput s ≠ []
  ∧ (all_separators s = false → ∀ t, t ∈ normalizeInput s → t ≠ "").
Proof.
  destruct (normalizeInput_shape s) as (tok & rest & Hs & Hrest & Htok & Hhead).
  split; [now rewrite Hs|].
  intros Hsep t Hin. rewrite Hs in Hin.
  apply elem_of_cons in Hin as [->|Hin].
  - intros ->. rewrite (Hhead eq_refl) in Hs.
    apply normalizeInput_empty_token in Hs. congruence.
  - rewrite Forall_forall in Hrest. now apply Hrest.
Qed.

Lemma concat_split s : String.concat " " (split " " s) = s.
Proof.
  induction s as [|c r IH]; [reflexivity|]. cbn [split].
  destruct (split_cons " " r) as (tok & rest & Hs). rewrite Hs in *.
  destruct (c =? " ")%char eqn:Hc.
  - apply Ascii.eqb_eq in Hc as ->.
    change (String.concat " " ("" :: tok :: rest))
      with (String " " (String.concat " " (tok :: rest))).
    now rewrite IH.
  - destruct rest as [|tok' rest].
    + cbn in *. now rewrite IH.
    + change (String.concat " " (String c tok :: tok' :: rest))
        with (String c (String.concat " " (tok :: tok' :: rest))).
      now rewrite IH.
Qed.

Lemma concat_tokens s :
  String.concat "" (split " " s) = string_filter (λ c, negb (c =? " ")%char) s.
Proof.
  induction s as [|c r IH]; [reflexivity|]. cbn [split string_filter].
  destruct (split_cons " " r) as (tok & rest & Hs). rewrite Hs in *.
  destruct (c =? " ")%char eqn:Hc; cbn [negb].
  - now rewrite <- IH.
  - rewrite <- IH. now destruct rest.
Qed.

Lemma filter_replace b s :
  string_filter (λ c, negb (is_separator c)) (replace_from b s)
  = string_filter (λ c, negb (is_separator c)) s.
Proof.
  revert b. induction s as [|c r IH]; intros b; cbn; [reflexivity|].
  destruct (is_separator c) eqn:Hc; cbn.
  - destruct b; cbn; apply IH.
  - now rewrite Hc, IH.
Qed.

Lemma filter_strip_leading s :
  string_filter (λ c, negb (is_separator c)) (strip_leading_space s)
  = string_filter (λ c, negb (is_separator c)) s.
Proof.
  destruct s as [|c r]; cbn; [reflexivity|].
  destruct (c =? " ")%char eqn:Hc; [|reflexivity].
  now rewrite (space_is_separator c Hc).
Qed.

Lemma filter_strip_trailing s :
  string_filter (λ c, negb (is_separator c)) (strip_trailing_space s)
  = string_filter (λ c, negb (is_separator c)) s.
Proof.
  induction s as [|c r IH]; [reflexivity|].
  destruct r as [|d r'].
  - cbn. destruct (c =? " ")%char eqn:Hc; [|reflexivity].
    now rewrite (space_is_separator c Hc).
  - change (strip_trailing_space (String c (String d r')))
      with (String c (strip_trailing_space (String d r'))).
    cbn [string_filter]. now rewrite IH.
Qed.

Lemma filter_spaced b s :
  spaced b s = true →
  string_filter (λ c, negb (c =? " ")%char) s
  = string_filter (λ c, negb (is_separator c)) s.
Proof.
  revert b. induction s as [|c r IH]; intros b; cbn; [reflexivity|].
  destruct (c =? " ")%char eqn:Hc.
  - intros [_ H]%andb_true_iff. rewrite (space_is_separator c Hc). cbn. eauto.
  - intros [[H1 _]%andb_true_iff H]%andb_true_iff. rewrite H1. cbn.
    f_equal. eauto.
Qed.

(** X3.  The tokens hold, in order, exactly the characters of the lowercased
    input that are not separators: nothing else is dropped, added or
    reordered. *)
Theorem normalizeInput_keeps_characters s :
  String.concat "" (normalizeInput s)
  = string_filter (λ c, negb (is_separator c)) (toLowerCase s).
Proof.
  rewrite normalizeInput_steps, concat_tokens.
  destruct (stripped_shape s) as [Hsp _].
  rewrite (filter_spaced true) by exact Hsp.
  rewrite filter_strip_trailing, filter_strip_leading.
  apply filter_replace.
Qed.

Lemma spaced_lower b s : spaced b s = true → toLowerCase s = s.
Proof.
  revert b. induction s as [|c r IH]; intros b; cbn; [reflexivity|].
  destruct (c =? " ")%char eqn:Hc.
  - intros [_ H]%andb_true_iff. apply Ascii.eqb_eq in Hc as ->.
    f_equal. eauto.
  - intros [[_ H1]%andb_true_iff H]%andb_true_iff.
    apply Ascii.eqb_eq in H1. rewrite H1. f_equal. eauto.
Qed.

Lemma spaced_replace b s : spaced b s = true → replace_from b s = s.
Proof.
  revert b. induction s as [|c r IH]; intros b; cbn; [reflexivity|].
  destruct (c =? " ")%char eqn:Hc.
  - intros [Hb H]%andb_true_iff. apply negb_true_iff in Hb as ->.
    rewrite (space_is_separator c Hc). apply Ascii.eqb_eq in Hc as ->.
    f_equal. eauto.
  - intros [[H1 _]%andb_true_iff H]%andb_true_iff.
    apply negb_true_iff in H1 as ->. f_equal. eauto.
Qed.

Lemma spaced_strip_leading s : spaced true s = true → strip_leading_space s = s.
Proof.
  destruct s as [|c r]; cbn; [reflexivity|]. now destruct (c =? " ")%char.
Qed.

Lemma no_space_strip_trailing s :
  ends_with_space s = false → strip_trailing_space s = s.
Proof.
  induction s as [|c r IH]; [reflexivity|].
  destruct r as [|d r'].
  - cbn. now intros ->.
  - change (strip_trailing_space (String c (String d r')))
      with (String c (strip_trailing_space (String d r'))).
    rewrite ends_with_space_cons by discriminate. intros H. now rewrite IH.
Qed.

(** X4.  Tokenizing is idempotent: the tokens joined by single spaces
    tokenize to the same tokens. *)
Theorem normalizeInput_idempotent s :
  normalizeInput (String.concat " " (normalizeInput s)) = normalizeInput s.
Proof.
  rewrite (normalizeInput_steps s), concat_split.
  destruct (stripped_shape s) as [Hsp Hend]. cbn zeta in Hsp, Hend.
  set (t := strip_trailing_space _) in *.
  rewrite normalizeInput_steps, (spaced_lower true t Hsp).
  unfold replace_separators.
  rewrite (spaced_replace false t) by (eapply spaced_weaken; exact Hsp).
  now rewrite spaced_strip_leading, no_space_strip_trailing.
Qed.

Lemma same_char_cases c d :
  same_char c d = true →
  is_separator c = is_separator d
  ∧ (is_separator c = false → lower_char c = lower_char d).
Proof.
  unfold same_char. intros [H|[H1 H2]%andb_true_iff]%orb_true_iff.
  - apply Ascii.eqb_eq in H. split; [|auto].
    now rewrite <- (lower_char_separator c), H, lower_char_separator.
  - rewrite H1, H2. split; [reflexivity | discriminate].
Qed.

Lemma same_text_replace b s t :
  same_text s t = true →
  replace_from b (toLowerCase s) = replace_from b (toLowerCase t).
Proof.
  revert b t. induction s as [|c r IH]; intros b [|d t]; cbn;
    try discriminate; [reflexivity|].
  intros [Hcd Hrt]%andb_true_iff.
  destruct (same_char_cases c d Hcd) as [Hsep Hlow].
  rewrite !lower_char_separator, <- Hsep.
  destruct (is_separator c).
  - destruct b; now rewrite (IH true t Hrt).
  - now rewrite (Hlow eq_refl), (IH false t Hrt).
Qed.

(** X5.  On texts of code units below U+0100, where [toLowerCase] acts on
    each unit by itself, the tokenizer tells neither letter case nor the
    five separator characters apart: two such texts of the same length
    whose characters differ at most in case, or are separators at the same
    places, have the same tokens.  (Beyond U+0100 the lower case of a
    letter can depend on its neighbours, as for the Greek final sigma, and
    the property is not claimed there.) *)
Theorem normalizeInput_same_text s t :
  same_text s t = true → normalizeInput s = normalizeInput t.
Proof.
  intros H. rewrite !normalizeInput_steps. unfold replace_separators.
  now rewrite (same_text_replace false s t H).
Qed.

End TokenShape.

(** ** The constructor and [match] of [FuzzyCommand] *)

Section MatchProperties.

Context {number : Type}.

Implicit Types (c : FuzzyCommand) (a : SpeechRecognitionAlternative number).
Implicit Types (tokens : list string) (st : scan_state).

(** X6.  A constructed dictionary depends only on the set of the keys:
    the order of the words and their repetitions are irrelevant, so that
    two commands constructed from lists with the same members are the
    same command. *)
Theorem new_FuzzyCommand_set_semantics
    (id : string) (vs vs' attrs attrs' : list string) (vf : bool) :
  (∀ w, w ∈ vs ↔ w ∈ vs') → (∀ w, w ∈ attrs ↔ w ∈ attrs') →
  new_FuzzyCommand id vs attrs vf = new_FuzzyCommand id vs' attrs' vf.
Proof.
  assert (Hdict : ∀ l l' : list string,
            (∀ w, w ∈ l ↔ w ∈ l') → dict_of_list l = dict_of_list l').
  { intros l l' Hl. apply map_eq. intros k. unfold dict_of_list.
    rewrite !dict_fold_lookup.
    destruct (decide (k ∈ l ∧ k ≠ "__proto__")) as [[H1 H2]|H].
    - rewrite !bool_decide_eq_true_2; auto. split; [now apply Hl | auto].
    - rewrite !bool_decide_eq_false_2; auto.
      intros [H1 H2]. apply H. split; [now apply Hl | auto]. }
  intros Hv Ha. unfold new_FuzzyCommand.
  now rewrite (Hdict vs vs' Hv), (Hdict attrs attrs' Ha).
Qed.

Lemma inherited_token (t : string) :
  string_forall token_char t = true → inherited t = true →
  t = "constructor" ∨ t = "__proto__".
Proof.
  intros Ht Hin. unfold inherited in Hin. apply bool_decide_eq_true in Hin.
  unfold Object_prototype_keys in Hin.
  repeat (apply elem_of_cons in Hin as [->|Hin];
          [first [now left | now right | vm_compute in Ht; discriminate]|]).
  inversion Hin.
Qed.

(** X7.  On a token of a transcript the membership test of a constructed
    dictionary succeeds exactly for the words given to the constructor and
    for the two words "constructor" and "__proto__": the other property
    names of [Object.prototype] have an upper-case letter, which no token
    has. *)
Theorem dict_truthy_on_tokens (keys : list string) (s t : string) :
  t ∈ normalizeInput s →
  (dict_truthy (dict_of_list keys) t = true
   ↔ t ∈ keys ∨ t = "constructor" ∨ t = "__proto__").
Proof.
  intros Ht. rewrite dict_truthy_of_list. split.
  - intros [H|H]; [now left|]. right.
    apply inherited_token.
    + destruct (normalizeInput_shape s) as (tok & rest & Hs & Hrest & Htok & _).
      rewrite Hs in Ht. apply elem_of_cons in Ht as [->|Ht]; [exact Htok|].
      rewrite Forall_forall in Hrest. now apply Hrest.
    + now apply bool_decide_eq_true.
  - intros [H|[->| ->]]; [now left| |]; right;
      apply (bool_decide_unpack _); vm_compute; exact I.
Qed.

(** *** The result of [match] from the two flags *)

Lemma scan_flags_fold c st tokens :
  scan_flags (verbFirst c) (is_verb c) (is_attribute c)
    (bool_decide (verb st ≠ None)) (0 <? length (args st))%nat tokens
  = bool_decide (verb (fold_left (match_token c) tokens st) ≠ None)
    && (0 <? length (args (fold_left (match_token c) tokens st)))%nat.
Proof.
  revert st. induction tokens as [|t ts IH]; intros st; [reflexivity|].
  cbn [scan_flags fold_left]. rewrite <- IH. clear IH.
  assert (Hv : bool_decide (verb (match_token c st t) ≠ None)
               = bool_decide (verb st ≠ None) || is_verb c t).
  { unfold match_token, is_verb. cbn [verb].
    destruct (verb st); [reflexivity|].
    now destruct (dict_truthy (verbs c) t). }
  rewrite Hv. f_equal.
  unfold match_token at 1. cbn [args]. fold (is_verb c t) (is_attribute c t).
  change (match verb st with
          | Some v => Some v
          | None => if is_verb c t then Some t else None
          end) with (verb (match_token c st t)).
  rewrite Hv.
  destruct (_ || negb (verbFirst c)), (is_attribute c t);
    rewrite ?orb_false_r; try reflexivity.
  rewrite length_app, orb_true_r. cbn [length].
  now rewrite Nat.add_1_r.
Qed.

Lemma FuzzyCommand_match_flags c a :
  FuzzyCommand_match c a
  = if scan_flags (verbFirst c) (is_verb c) (is_attribute c) false false
         (normalizeInput (alt_transcript a))
    then Some {| res_id := fc_id c; res_confidence := alt_confidence a |}
    else None.
Proof.
  unfold FuzzyCommand_match, scan.
  now rewrite <- (scan_flags_fold c {| verb := None; args := [] |}).
Qed.

(** Everything that can only help a match. *)
Lemma scan_flags_mono (vf vf' : bool) (isv isv' isa isa' : string → bool)
    (l l' : list string) :
  (vf' = true → vf = true) →
  (∀ t, t ∈ l' → isv t = true → isv' t = true) →
  (∀ t, t ∈ l' → isa t = true → isa' t = true) →
  l `sublist_of` l' →
  ∀ v v' x x' : bool,
    (v = true → v' = true) → (x = true → x' = true) →
    scan_flags vf isv isa v x l = true →
    scan_flags vf' isv' isa' v' x' l' = true.
Proof.
  intros Hvf Hisv Hisa Hsub.
  assert (Hpol : negb vf = true → negb vf' = true).
  { destruct vf, vf'; auto. }
  clear Hvf.
  induction Hsub as [|t l1 l2 Hsub IH|t l1 l2 Hsub IH]; intros v v' x x' Hv Hx.
  - cbn. rewrite !andb_true_iff. tauto.
  - cbn [scan_flags].
    pose proof (Hisv t (list_elem_of_here _ _)) as Ht1.
    pose proof (Hisa t (list_elem_of_here _ _)) as Ht2.
    apply IH.
    + intros u Hu. apply Hisv. now right.
    + intros u Hu. apply Hisa. now right.
    + rewrite !orb_true_iff. tauto.
    + rewrite !orb_true_iff, !andb_true_iff, !orb_true_iff. tauto.
  - cbn [scan_flags]. apply IH.
    + intros u Hu. apply Hisv. now right.
    + intros u Hu. apply Hisa. now right.
    + rewrite orb_true_iff. tauto.
    + rewrite orb_true_iff. tauto.
Qed.

(** X8.  A command without [verbFirst] accepts every transcript that the
    same command with [verbFirst] accepts, with the same result. *)
Theorem verbFirst_false_accepts_more
    (id : string) (vs attrs : list string) a (r : MatchResult number) :
  FuzzyCommand_match (new_FuzzyCommand id vs attrs true) a = Some r →
  FuzzyCommand_match (new_FuzzyCommand id vs attrs false) a = Some r.
Proof.
  rewrite !FuzzyCommand_match_flags. cbn [verbFirst fc_id new_FuzzyCommand].
  destruct (scan_flags true _ _ _ _ _) eqn:H; [|discriminate].
  intros <-.
  assert (H' : scan_flags false
                 (is_verb (new_FuzzyCommand id vs attrs false))
                 (is_attribute (new_FuzzyCommand id vs attrs false))
                 false false (normalizeInput (alt_transcript a)) = true).
  { refine (scan_flags_mono true false _ _ _ _ _ _ _ _ _ (reflexivity _)
              false false false false (λ h, h) (λ h, h) H);
      [discriminate | intros t _ Ht; exact Ht | intros t _ Ht; exact Ht]. }
  now rewrite H'.
Qed.

(** X9.  Further words never break a match: when the tokens of [a] are a
    subsequence of the tokens of [a'], a command that matches [a] matches
    [a']. *)
Theorem match_survives_more_words c a a' :
  normalizeInput (alt_transcript a)
    `sublist_of` normalizeInput (alt_transcript a') →
  FuzzyCommand_match c a ≠ None →
  FuzzyCommand_match c a'
  = Some {| res_id := fc_id c; res_confidence := alt_confidence a' |}.
Proof.
  intros Hsub. rewrite !FuzzyCommand_match_flags.
  destruct (scan_flags _ _ _ _ _ (normalizeInput (alt_transcript a))) eqn:H;
    [|congruence].
  intros _.
  now rewrite (scan_flags_mono (verbFirst c) (verbFirst c) _ _ _ _ _ _
                 (λ h, h) (λ _ _ h, h) (λ _ _ h, h) Hsub
                 false false false false (λ h, h) (λ h, h) H).
Qed.

(** X10.  A larger vocabulary never breaks a match: a command constructed
    with further verbs and attributes matches every transcript that the
    smaller command matches, with the same result. *)
Theorem match_survives_more_vocabulary
    (id : string) (vs vs' attrs attrs' : list string) (vf : bool) a
    (r : MatchResult number) :
  (∀ w, w ∈ vs → w ∈ vs') → (∀ w, w ∈ attrs → w ∈ attrs') →
  FuzzyCommand_match (new_FuzzyCommand id vs attrs vf) a = Some r →
  FuzzyCommand_match (new_FuzzyCommand id vs' attrs' vf) a = Some r.
Proof.
  intros Hv Ha. rewrite !FuzzyCommand_match_flags.
  cbn [verbFirst fc_id new_FuzzyCommand].
  destruct (scan_flags vf _ _ _ _ _) eqn:H; [|discriminate].
  intros <-.
  assert (H' : scan_flags vf
                 (is_verb (new_FuzzyCommand id vs' attrs' vf))
                 (is_attribute (new_FuzzyCommand id vs' attrs' vf))
                 false false (normalizeInput (alt_transcript a)) = true).
  { refine (scan_flags_mono vf vf _ _ _ _ _ _ (λ h, h) _ _ (reflexivity _)
              false false false false (λ h, h) (λ h, h) H).
    - intros t _. unfold is_verb. cbn [verbs new_FuzzyCommand].
      rewrite !dict_truthy_of_list. intros [Hin|Hin]; auto.
    - intros t _. unfold is_attribute. cbn [attributes new_FuzzyCommand].
      rewrite !dict_truthy_of_list. intros [Hin|Hin]; auto. }
  now rewrite H'.
Qed.

Lemma token_word_filter (l : list string) (s t : string) :
  t ∈ normalizeInput s →
  dict_truthy (dict_of_list (List.filter token_word l)) t
  = dict_truthy (dict_of_list l) t.
Proof.
  intros Ht.
  assert (Hw : token_word t = true).
  { destruct (normalizeInput_shape s) as (tok & rest & Hs & Hrest & Htok & _).
    rewrite Hs in Ht. apply elem_of_cons in Ht as [->|Ht]; [exact Htok|].
    rewrite Forall_forall in Hrest. now apply Hrest. }
  apply eq_true_iff_eq. rewrite !dict_truthy_of_list.
  rewrite !list_elem_of_In, filter_In. tauto.
Qed.

(** X11.  A word given to the constructor that has an upper-case letter or
    a separator character is never equal to a token: the command behaves
    on every transcript as if the word had not been given. *)
Theorem match_ignores_non_token_words
    (id : string) (vs attrs : list string) (vf : bool) a :
  FuzzyCommand_match (new_FuzzyCommand id vs attrs vf) a
  = FuzzyCommand_match
      (new_FuzzyCommand id (List.filter token_word vs)
         (List.filter token_word attrs) vf) a.
Proof.
  rewrite !FuzzyCommand_match_flags. cbn [verbFirst fc_id new_FuzzyCommand].
  set (tokens := normalizeInput (alt_transcript a)).
  assert (Hiff : ∀ vf' (f f' g g' : string → bool),
            (∀ t, t ∈ tokens → f t = f' t) → (∀ t, t ∈ tokens → g t = g' t) →
            scan_flags vf' f g false false tokens
            = scan_flags vf' f' g' false false tokens).
  { intros vf' f f' g g' Hf Hg. apply eq_true_iff_eq. split; intros H.
    - refine (scan_flags_mono vf' vf' f f' g g' _ _ (λ h, h) _ _
                (reflexivity _) false false false false (λ h, h) (λ h, h) H).
      + intros t Ht. now rewrite Hf.
      + intros t Ht. now rewrite Hg.
    - refine (scan_flags_mono vf' vf' f' f g' g _ _ (λ h, h) _ _
                (reflexivity _) false false false false (λ h, h) (λ h, h) H).
      + intros t Ht. now rewrite Hf.
      + intros t Ht. now rewrite Hg. }
  rewrite (Hiff vf (is_verb (new_FuzzyCommand id vs attrs vf))
             (is_verb (new_FuzzyCommand id (List.filter token_word vs)
                         (List.filter token_word attrs) vf))
             (is_attribute (new_FuzzyCommand id vs attrs vf))
             (is_attribute (new_FuzzyCommand id (List.filter token_word vs)
                              (List.filter token_word attrs) vf)));
    [reflexivity| |].
  - intros t Ht. unfold is_verb. cbn [verbs new_FuzzyCommand].
    symmetry. now apply (token_word_filter vs (alt_transcript a)).
  - intros t Ht. unfold is_attribute. cbn [attributes new_FuzzyCommand].
    symmetry. now apply (token_word_filter attrs (alt_transcript a)).
Qed.

End MatchProperties.

(** ** [parse]: which match is returned *)

Section ParseSelection.

Context {number : Type} (lt : number → number → bool).

Implicit Types (alt a : SpeechRecognitionAlternative number).
Implicit Types (m : MatchResult number) (command : Command number).
Implicit Types (vals : list (SpeechRecognitionAlternative number)).
Implicit Types (commands : list (Command number)).
Implicit Types (st : parse_state number).
Implicit Types
  (best e : MatchResult number * SpeechRecognitionAlternative number).

Lemma elem_of_matches_of commands alt e :
  e ∈ matches_of commands alt
  ↔ snd e = alt ∧ ∃ command, command ∈ commands
                              ∧ match_ command alt = Some (fst e).
Proof.
  induction commands as [|command commands IH].
  - cbn. split; [intros H; inversion H | intros (_ & ? & H & _); inversion H].
  - rewrite matches_of_cons, elem_of_app, IH. clear IH.
    unfold matches_of. cbn [flat_map]. rewrite app_nil_r. split.
    + intros [H|(H1 & c' & H2 & H3)].
      * destruct (match_ command alt) as [m|] eqn:Hm; [|inversion H].
        apply list_elem_of_singleton in H as ->. cbn.
        split; [reflexivity|]. exists command. split; [left | exact Hm].
      * split; [exact H1|]. exists c'. split; [now right | exact H3].
    + intros (H1 & c' & [->|H2]%elem_of_cons & H3).
      * left. rewrite H3. destruct e as [m a']. cbn in *. subst. left.
      * right. eauto.
Qed.

Lemma elem_of_match_events vals commands e :
  e ∈ match_events vals commands
  ↔ snd e ∈ vals ∧ ∃ command, command ∈ commands
                               ∧ match_ command (snd e) = Some (fst e).
Proof.
  induction vals as [|alt vals IH].
  - cbn. split; [intros H; inversion H | intros [H _]; inversion H].
  - unfold match_events in *. cbn [flat_map].
    rewrite elem_of_app, IH, elem_of_matches_of, elem_of_cons. clear IH.
    split.
    + intros [[<- H]|[H1 H2]]; auto.
    + intros [[->|H1] H2]; auto.
Qed.

Lemma match_events_nil vals commands :
  match_events vals commands = []
  ↔ ∀ a command, a ∈ vals → command ∈ commands → match_ command a = None.
Proof.
  split.
  - intros Hnil a command Ha Hc.
    destruct (match_ command a) as [m|] eqn:Hm; [|reflexivity].
    assert (H : (m, a) ∈ match_events vals commands).
    { apply elem_of_match_events. cbn. eauto. }
    rewrite Hnil in H. inversion H.
  - intros Hnone. destruct (match_events vals commands) as [|e rest] eqn:He;
      [reflexivity|].
    assert (H : e ∈ match_events vals commands) by (rewrite He; left).
    apply elem_of_match_events in H as (H1 & command & H2 & H3).
    rewrite (Hnone _ _ H1 H2) in H3. discriminate.
Qed.

(** X12.  [parse] returns a match exactly when one of the commands matches
    one of the alternatives. *)
Theorem parse_matches_iff vals commands :
  fst (parse lt vals commands) ≠ None
  ↔ ∃ a command,
      a ∈ vals ∧ command ∈ commands ∧ match_ command a ≠ None.
Proof.
  unfold parse, parse_loop. cbn [fst].
  destruct (match_events vals commands) as [|e rest] eqn:He.
  - rewrite (loop_no_match lt commands vals parse_init eq_refl He).
    split; [congruence|]. intros (a & command & Ha & Hc & Hm).
    exfalso. apply Hm. now apply (proj1 (match_events_nil vals commands) He).
  - rewrite (loop_unmatched lt commands vals parse_init e rest eq_refl He).
    split; [|discriminate]. intros _.
    assert (H : e ∈ match_events vals commands) by (rewrite He; left).
    apply elem_of_match_events in H as (H1 & command & H2 & H3).
    exists (snd e), command. rewrite H3. auto.
Qed.

Lemma loop_without_matches commands vals st :
  highestMatch st = None →
  match_events vals commands = [] →
  fold_left (parse_alternative lt commands) vals st
  = fold_left (parse_alternative lt []) vals st.
Proof.
  revert st. induction vals as [|alt vals IH]; intros st Hst Hev;
    [reflexivity|].
  unfold match_events in Hev. cbn [flat_map] in Hev.
  apply app_eq_nil in Hev as [H1 H2].
  cbn [fold_left]. rewrite parse_alternative_unmatched, H1 by exact Hst.
  apply IH; [exact Hst | exact H2].
Qed.

(** X13.  When no command matches any alternative the commands are
    irrelevant: the result is the one for no commands at all, that is, no
    match and the alternative kept by the running maximum. *)
Theorem parse_without_matches vals commands :
  (∀ a command, a ∈ vals → command ∈ commands → match_ command a = None) →
  parse lt vals commands = parse lt vals [].
Proof.
  intros H%match_events_nil. unfold parse, parse_loop.
  now rewrite (loop_without_matches commands vals parse_init eq_refl H).
Qed.

Lemma adopt_maximum first rest :
  (∀ x y z : number, lt x y = true → lt y z = true → lt x z = true) →
  (∀ x y z : number, lt x z = true → lt x y = true ∨ lt y z = true) →
  Forall (λ e, res_confidence (fst e) = alt_confidence (snd e))
    (first :: rest) →
  ∃ pre post,
    first :: rest = pre ++ fold_left (adopt lt) rest first :: post
    ∧ Forall (λ e, lt (alt_confidence (snd e))
                      (alt_confidence (snd (fold_left (adopt lt) rest first)))
                   = true) pre
    ∧ Forall (λ e, lt (alt_confidence (snd (fold_left (adopt lt) rest first)))
                      (alt_confidence (snd e))
                   = false) post.
Proof.
  intros Htrans Hneg.
  induction rest as [|x rest IH] using rev_ind; intros Hcopy.
  - exists [], []. cbn. auto.
  - rewrite app_comm_cons in Hcopy. apply Forall_app in Hcopy as [Hc1 Hc2].
    destruct (IH Hc1) as (pre & post & Heq & Hpre & Hpost).
    rewrite fold_left_app. cbn [fold_left].
    set (best := fold_left (adopt lt) rest first) in *.
    assert (Hbest : res_confidence (fst best) = alt_confidence (snd best)).
    { rewrite Forall_forall in Hc1. apply Hc1. rewrite Heq.
      apply elem_of_app. right. left. }
    unfold adopt. rewrite Hbest.
    destruct (lt (alt_confidence (snd best)) (alt_confidence (snd x))) eqn:Hx.
    + exists (pre ++ best :: post), []. split; [|split; [|constructor]].
      * now rewrite app_comm_cons, Heq.
      * apply Forall_app. split; [|constructor].
        -- eapply Forall_impl; [exact Hpre|]. cbn. intros e He.
           now apply (Htrans _ (alt_confidence (snd best))).
        -- exact Hx.
        -- eapply Forall_impl; [exact Hpost|]. cbn. intros e He.
           destruct (Hneg _ (alt_confidence (snd e)) _ Hx) as [H|H];
             congruence.
    + exists pre, (post ++ [x]). split; [|split; [exact Hpre|]].
      * now rewrite app_comm_cons, Heq, <- app_assoc.
      * apply Forall_app. split; [exact Hpost|]. now constructor.
Qed.

(** X14.  With commands that copy the confidence, and [<] a strict weak
    order, the match that [parse] returns is the first one of the highest
    confidence: in the order of the scan every match before it has an
    alternative of a strictly smaller confidence, and no alternative
    matched by a command has a greater confidence than the returned one. *)
Theorem parse_returns_best_match vals commands m a :
  (∀ x : number, lt x x = false) →
  (∀ x y z : number, lt x y = true → lt y z = true → lt x z = true) →
  (∀ x y z : number, lt x z = true → lt x y = true ∨ lt y z = true) →
  Forall copies_confidence commands →
  parse lt vals commands = (Some m, Some a) →
  (∃ pre post,
      match_events vals commands = pre ++ (m, a) :: post
      ∧ Forall (λ e, lt (alt_confidence (snd e)) (alt_confidence a) = true) pre)
  ∧ ∀ a' command,
      a' ∈ vals → command ∈ commands → match_ command a' ≠ None →
      lt (alt_confidence a) (alt_confidence a') = false.
Proof.
  intros Hirr Htrans Hneg Hcopy Hparse.
  assert (Hcopies : Forall (λ e, res_confidence (fst e) = alt_confidence (snd e))
                      (match_events vals commands)).
  { apply Forall_forall. intros e (_ & command & Hc & Hm)%elem_of_match_events.
    rewrite Forall_forall in Hcopy. now apply (Hcopy command Hc). }
  destruct (match_events vals commands) as [|first rest] eqn:He.
  { unfold parse, parse_loop in Hparse.
    pose proof (loop_no_match lt commands vals parse_init eq_refl He) as H.
    injection Hparse as H1 _. congruence. }
  unfold parse, parse_loop in Hparse.
  rewrite (loop_unmatched lt commands vals parse_init first rest eq_refl He)
    in Hparse.
  cbn in Hparse. injection Hparse as Hm Ha.
  destruct (adopt_maximum first rest Htrans Hneg Hcopies)
    as (pre & post & Heq & Hpre & Hpost).
  destruct (fold_left (adopt lt) rest first) as [m0 a0]. cbn in *. subst m0 a0.
  split; [eauto|].
  intros a' command Ha' Hc Hm.
  destruct (match_ command a') as [m'|] eqn:Hm'; [|congruence].
  assert (Hin : (m', a') ∈ match_events vals commands).
  { apply elem_of_match_events. cbn. eauto. }
  rewrite He, Heq in Hin. rewrite Forall_forall in Hpre, Hpost.
  apply elem_of_app in Hin as [Hin|[Hin|Hin]%elem_of_cons].
  - specialize (Hpre _ Hin). cbn in Hpre.
    destruct (lt (alt_confidence a) (alt_confidence a')) eqn:Hlt; [|reflexivity].
    rewrite <- (Hirr (alt_confidence a')). symmetry.
    now apply (Htrans _ (alt_confidence a)).
  - injection Hin as _ ->. apply Hirr.
  - apply (Hpost _ Hin).
Qed.

Lemma parse_alternative_drop (cs1 cs2 : list (Command number)) command st alt :
  match_ command alt = None →
  parse_alternative lt (cs1 ++ command :: cs2) st alt
  = parse_alternative lt (cs1 ++ cs2) st alt.
Proof.
  intros Hm. unfold parse_alternative. rewrite !fold_left_app.
  cbn [fold_left]. unfold parse_command at 2. now rewrite Hm.
Qed.

(** X15.  A command that matches none of the alternatives can be removed
    from the list of commands, wherever it stands, without changing the
    result. *)
Theorem parse_drop_silent_command vals (cs1 cs2 : list (Command number)) command :
  (∀ a, a ∈ vals → match_ command a = None) →
  parse lt vals (cs1 ++ command :: cs2) = parse lt vals (cs1 ++ cs2).
Proof.
  intros Hnone. unfold parse, parse_loop.
  assert (H : ∀ st,
            fold_left (parse_alternative lt (cs1 ++ command :: cs2)) vals st
            = fold_left (parse_alternative lt (cs1 ++ cs2)) vals st).
  { induction vals as [|alt vals IH]; intros st; [reflexivity|].
    cbn [fold_left]. rewrite parse_alternative_drop by (apply Hnone; left).
    apply IH. intros a Ha. apply Hnone. now right. }
  now rewrite H.
Qed.

(** X16.  With a list of [FuzzyCommand]s a returned match carries the
    identifier of one of them, which matches the returned alternative, and
    the confidence of that alternative. *)
Theorem parse_returns_registered_command vals (cs : list FuzzyCommand) m oa :
  parse lt vals (map FuzzyCommand_Command cs) = (Some m, oa) →
  ∃ c a,
    oa = Some a ∧ a ∈ vals ∧ c ∈ cs
    ∧ FuzzyCommand_match c a = Some m
    ∧ res_id m = fc_id c
    ∧ res_confidence m = alt_confidence a.
Proof.
  intros Hparse. unfold parse in Hparse. injection Hparse as Hm Ha.
  destruct vals as [|x l]; [discriminate|].
  destruct (parse_loop_consistent lt (x :: l) (map FuzzyCommand_Command cs))
    as (a & Ha' & Hin & Hcmd); [discriminate|].
  destruct (Hcmd m Hm) as (command & Hc & Hmatch).
  apply list_elem_of_fmap in Hc as (c & -> & Hc). cbn in Hmatch.
  exists c, a. rewrite <- Ha, Ha'.
  pose proof (FuzzyCommand_match_Some c a m Hmatch) as ->.
  repeat (split; [auto; fail|]). reflexivity.
Qed.

End ParseSelection.

(** ** The rows of the feedback list *)

Section FeedbackRows.

Context {FeedbackIssue ApiMeta RequestError : Type}.

Implicit Types (query : InfiniteQueryResult FeedbackIssue ApiMeta RequestError).
Implicit Types (pages : list (ApiResult FeedbackIssue ApiMeta)).

Lemma length_pages pages :
  length (flat_map fst pages)
  = sum_list (map (λ page : ApiResult FeedbackIssue ApiMeta, length (fst page))
                pages).
Proof.
  induction pages as [|page pages IH]; [reflexivity|].
  cbn [flat_map map sum_list]. rewrite length_app, IH. reflexivity.
Qed.

Lemma array_get_Some {A : Type} (array : list A) (index : Z) :
  array_get array index ≠ None ↔ (0 ≤ index < Z.of_nat (length array))%Z.
Proof.
  unfold array_get. destruct (0 <=? index)%Z eqn:H0.
  - apply Z.leb_le in H0. rewrite not_eq_None_Some, lookup_lt_is_Some. lia.
  - apply Z.leb_gt in H0. split; [congruence | lia].
Qed.

(** X17.  The list of issues is the concatenation of the fetched pages, in
    their order, and a row is loaded exactly when its index is an index of
    that list: at least zero and below the number of issues on the pages,
    so that no row is loaded while there is no data.  Exactly for the
    loaded rows [getRow] returns an issue, the one at that index of the
    list. *)
Theorem feedback_row_loaded_iff query (index : Z) :
  let list := useFetchFeedbackInfiniteListData query in
  issues list = concat (fetched_pages query)
  ∧ length (issues list) = fetched_issues query
  ∧ (isRowLoaded list index = true
     ↔ (0 ≤ index < Z.of_nat (fetched_issues query))%Z)
  ∧ (isRowLoaded list index = true ↔ ∃ issue, getRow list index = Some issue)
  ∧ (∀ issue,
       getRow list index = Some issue
       ↔ (0 ≤ index)%Z ∧ issues list !! Z.to_nat index = Some issue).
Proof.
  cbn zeta. unfold useFetchFeedbackInfiniteListData, fetched_issues,
    fetched_pages.
  cbn [issues isRowLoaded getRow].
  set (rows := match q_data query with
               | Some pages => flat_map fst pages
               | None => []
               end).
  assert (Hlen : length rows
                 = match q_data query with
                   | Some pages =>
                       sum_list (map (λ page : ApiResult FeedbackIssue ApiMeta,
                                        length (fst page)) pages)
                   | None => 0
                   end).
  { unfold rows. destruct (q_data query); [apply length_pages | reflexivity]. }
  split.
  { unfold rows. destruct (q_data query) as [pages|]; [|reflexivity].
    apply flat_map_concat_map. }
  split; [exact Hlen|]. rewrite <- Hlen, bool_decide_eq_true.
  split; [apply array_get_Some|]. split.
  - rewrite not_eq_None_Some. unfold is_Some. reflexivity.
  - intros issue. unfold array_get.
    destruct (0 <=? index)%Z eqn:H0.
    + apply Z.leb_le in H0. tauto.
    + apply Z.leb_gt in H0. split; [discriminate | lia].
Qed.

(** X18.  The rows follow the pages in their order: the issue at position
    [j] of a page is the row whose index is [j] plus the number of issues
    on the pages before it. *)
Theorem feedback_row_of_page query pages_before page pages_after
    (j : nat) (issue : FeedbackIssue) :
  q_data query = Some (pages_before ++ page :: pages_after) →
  fst page !! j = Some issue →
  getRow (useFetchFeedbackInfiniteListData query)
    (Z.of_nat
       (sum_list (map (λ p : ApiResult FeedbackIssue ApiMeta, length (fst p))
                    pages_before) + j))
  = Some issue.
Proof.
  intros Hdata Hj. unfold useFetchFeedbackInfiniteListData. cbn [getRow].
  rewrite Hdata. unfold array_get.
  rewrite (proj2 (Z.leb_le _ _)) by lia. rewrite Nat2Z.id.
  rewrite flat_map_app. cbn [flat_map].
  rewrite <- length_pages.
  set (n := length (flat_map fst pages_before)).
  rewrite (lookup_app_r _ _ (n + j)) by (unfold n; apply Nat.le_add_r).
  fold n. rewrite (Nat.add_comm n j), Nat.add_sub.
  now rewrite lookup_app_l by (apply lookup_lt_is_Some; eauto).
Qed.

End FeedbackRows.

(** ** The analytics of a loaded replay *)

Section ReplayAnalyticsProperties.

Context {Organization Platform RequestError num : Type}.
Context (useProjectFromSlug : Organization → option string
                              → option (Project Platform)).

Lemma filter_partition {A : Type} (p : A → bool) (l : list A) :
  length (List.filter p l) + length (List.filter (λ x, negb (p x)) l)
  = length l.
Proof.
  induction l as [|x l IH]; [reflexivity|]. cbn.
  destruct (p x); cbn; lia.
Qed.

(** X19.  The effect tracks an event only when nothing is being fetched,
    no fetch failed, and the replay and the project are there.  The event
    then counts every error frame once: the frames of the project of the
    replay as [fe_errors], the others as [be_errors], so that they add up
    to [total_errors], the number of error frames; [replay_errors] is 0. *)
Theorem replay_event_counts (org : Organization)
    (props : ReplayProps RequestError num)
    (event : DataLoaded Organization Platform num) :
  useLogReplayDataLoaded useProjectFromSlug org props = Some event →
  (fetching props = false ∧ fetchError props = None
   ∧ useProjectFromSlug org (projectSlug props) ≠ None)
  ∧ ∃ reader,
      replay props = Some reader
      ∧ total_errors event = length (getErrorFrames reader)
      ∧ fe_errors event + be_errors event = total_errors event
      ∧ fe_errors event
        = length (List.filter
                    (λ frame, bool_decide (Some (frame_projectSlug frame)
                                           = projectSlug props))
                    (getErrorFrames reader))
      ∧ replay_errors event = 0.
Proof.
  unfold useLogReplayDataLoaded.
  destruct (fetching props); [discriminate|].
  destruct (fetchError props); [discriminate|].
  destruct (replay props) as [reader|]; [|discriminate].
  destruct (useProjectFromSlug org (projectSlug props)) as [project|];
    [|discriminate].
  intros [= <-]. cbn.
  split; [split; [reflexivity | split; [reflexivity | discriminate]]|].
  exists reader. split; [reflexivity|]. split; [reflexivity|].
  split; [apply filter_partition|]. split; reflexivity.
Qed.

End ReplayAnalyticsProperties.

(** * The examples of the specification, and instances of the theorems *)

Lemma Qltb_lt (x y : Q) : Qltb x y = true ↔ (x < y)%Q.
Proof.
  unfold Qltb. rewrite negb_true_iff, <- not_true_iff_false, Qle_bool_iff.
  split; [apply Qnot_le_lt | apply Qlt_not_le].
Qed.

Lemma Qltb_irrefl (x : Q) : Qltb x x = false.
Proof.
  apply not_true_iff_false. rewrite Qltb_lt. apply Qlt_irrefl.
Qed.

Lemma Qltb_trans (x y z : Q) :
  Qltb x y = true → Qltb y z = true → Qltb x z = true.
Proof. rewrite !Qltb_lt. apply Qlt_trans. Qed.

Lemma Qltb_negtrans (x y z : Q) :
  Qltb x z = true → Qltb x y = true ∨ Qltb y z = true.
Proof.
  rewrite !Qltb_lt. intros Hxz.
  destruct (Qlt_le_dec x y) as [H|H]; [now left|].
  right. now apply (Qle_lt_trans _ x).
Qed.

Example normalize_sentence :
  normalizeInput "Please, open:  Settings now."
  = ["please"; "open"; "settings"; "now"].
Proof. reflexivity. Qed.

Example normalize_collapses_runs :
  normalizeInput "a  b" = ["a"; "b"] ∧ normalizeInput ".a." = ["a"]
  ∧ normalizeInput "" = [""].
Proof. repeat split. Qed.

(** The example of the specification with two alternatives and two
    commands. *)
Example parse_open_close :
  parse Qltb two_alternatives two_commands
  = (Some (result "CLOSE" (9 # 10)),
     Some (alternative "close settings" (9 # 10))).
Proof. vm_compute. reflexivity. Qed.

(** *** The tokenizer *)

(** A tab is white space, and it is a token character. *)
Lemma whitespace_only_not_empty_token :
  whitespace_only tab = true
  ∧ normalizeInput tab = [tab]
  ∧ normalizeInput tab ≠ [""].
Proof. repeat split. discriminate. Qed.

Lemma normalizeInput_spec_witness :
  all_separators " ,; " = true ∧ normalizeInput " ,; " = [""].
Proof.
  split; [reflexivity|].
  apply (proj2 (normalizeInput_spec " ,; ")). reflexivity.
Defined.

(** *** FuzzyCommand.match *)

Lemma match_iff_verb_and_attribute_witness :
  FuzzyCommand_match open_settings (alternative "please open settings now" (1 # 2))
  ≠ None.
Proof.
  apply (proj1 (match_iff_verb_and_attribute open_settings
                  (alternative "please open settings now" (1 # 2)))).
  split.
  - exists "open". split; [|vm_compute; reflexivity].
    vm_compute. right. left.
  - exists "settings". split; [|vm_compute; reflexivity].
    vm_compute. right. left.
Defined.


Lemma match_result_fields_witness :
  FuzzyCommand_match close_settings (alternative "Close: settings." (9 # 10))
  = Some (result "CLOSE" (9 # 10))
  ∧ res_id (result "CLOSE" (9 # 10)) = fc_id close_settings
  ∧ res_confidence (result "CLOSE" (9 # 10)) = 9 # 10.
Proof.
  split; [vm_compute; reflexivity|].
  apply (match_result_fields close_settings
           (alternative "Close: settings." (9 # 10))).
  vm_compute. reflexivity.
Defined.

(** The empty transcript matches a command that has the empty string among
    its verbs and among its attributes. *)
Lemma empty_transcript_matches :
  FuzzyCommand_match empty_words (alternative "" (1 # 2))
  = Some (result "EMPTY" (1 # 2)).
Proof. vm_compute. reflexivity. Qed.

Lemma match_empty_transcript_witness :
  FuzzyCommand_match open_settings (alternative "" (1 # 2)) = None.
Proof.
  apply (proj1 (match_empty_transcript "OPEN" ["open"] ["settings"] true (1 # 2))).
  intros [H _]. apply list_elem_of_singleton in H. discriminate.
Defined.

(** C2.  The command [no_words] was constructed without verbs and without
    attributes: its two dictionaries have no property of their own, so no
    token is in its verb set or in its attribute set.  Yet on the
    transcript "constructor" the scan sets the verb and collects an
    argument, both to the token "constructor", and [match] returns a
    result: the reads [this.verbs[token]] and [this.attributes[token]]
    reach [Object.prototype]. *)
Theorem match_without_words_matches :
  verbs no_words = ∅ ∧ attributes no_words = ∅
  ∧ normalizeInput "constructor" = ["constructor"]
  ∧ verb (scan no_words ["constructor"]) = Some "constructor"
  ∧ args (scan no_words ["constructor"]) = ["constructor"]
  ∧ FuzzyCommand_match no_words (alternative "constructor" (9 # 10))
    = Some (result "N" (9 # 10)).
Proof. repeat split; vm_compute; reflexivity. Qed.

(** C9.  The word "constructor" was given neither as a verb nor as an
    attribute of [open_settings], yet both membership tests succeed on it,
    through [Object.prototype], and the transcript "constructor" matches
    the command. *)
Theorem dictionary_inherits_constructor :
  ("constructor" ∉ ["open"]) ∧ ("constructor" ∉ ["settings"])
  ∧ is_verb open_settings "constructor" = true
  ∧ is_attribute open_settings "constructor" = true
  ∧ FuzzyCommand_match open_settings (alternative "constructor" (9 # 10))
    = Some (result "OPEN" (9 # 10)).
Proof.
  repeat split; try (vm_compute; reflexivity);
    intros H; apply list_elem_of_singleton in H; discriminate.
Qed.

(** *** parse *)

(** Two commands match the one alternative: the first one is kept. *)
Lemma parse_first_match_then_strictly_better_witness :
  parse Qltb
    [alternative "open settings" (1 # 2); alternative "open the settings" (1 # 2)]
    [FuzzyCommand_Command open_settings; FuzzyCommand_Command show_settings]
  = (Some (result "OPEN" (1 # 2)), Some (alternative "open settings" (1 # 2))).
Proof.
  refine (proj2 (proj2
    (parse_first_match_then_strictly_better Qltb _ _
       (result "OPEN" (1 # 2), alternative "open settings" (1 # 2))
       [ (result "SHOW" (1 # 2), alternative "open settings" (1 # 2));
         (result "OPEN" (1 # 2), alternative "open the settings" (1 # 2));
         (result "SHOW" (1 # 2), alternative "open the settings" (1 # 2)) ]
       Qltb_irrefl _)) _).
  - vm_compute. reflexivity.
  - repeat constructor.
Defined.

(** The example of the specification without commands. *)
Lemma parse_empty_inputs_witness :
  parse Qltb [] [FuzzyCommand_Command open_settings] = (None, None)
  ∧ ∃ pre a post,
      [alternative "x" (2 # 10); alternative "y" (7 # 10)] = pre ++ a :: post
      ∧ parse Qltb [alternative "x" (2 # 10); alternative "y" (7 # 10)] []
        = (None, Some a)
      ∧ (∀ b, b ∈ [alternative "x" (2 # 10); alternative "y" (7 # 10)] →
              Qltb (alt_confidence a) (alt_confidence b) = false)
      ∧ (∀ b, b ∈ pre → Qltb (alt_confidence b) (alt_confidence a) = true).
Proof.
  destruct (parse_empty_inputs Qltb Qltb_irrefl Qltb_trans Qltb_negtrans)
    as [Hnil Hcons].
  split; [apply Hnil|]. apply Hcons. discriminate.
Defined.

Example parse_no_commands :
  parse Qltb [alternative "x" (2 # 10); alternative "y" (7 # 10)] []
  = (None, Some (alternative "y" (7 # 10))).
Proof. vm_compute. reflexivity. Qed.

(** After "open settings" has matched, an alternative that matches nothing
    is skipped although its confidence is higher. *)
Lemma unmatched_alternative_inert_witness :
  parse Qltb
    ([alternative "open settings" (4 # 10)]
       ++ alternative "good morning" (9 # 10) :: [])
    [FuzzyCommand_Command open_settings; FuzzyCommand_Command close_settings]
  = parse Qltb ([alternative "open settings" (4 # 10)] ++ [])
      [FuzzyCommand_Command open_settings; FuzzyCommand_Command close_settings].
Proof.
  apply (unmatched_alternative_inert Qltb
           [alternative "open settings" (4 # 10)]
           (alternative "good morning" (9 # 10))
           [FuzzyCommand_Command open_settings;
            FuzzyCommand_Command close_settings]).
  - vm_compute. discriminate.
  - intros command Hin.
    apply elem_of_cons in Hin as [->|Hin]; [vm_compute; reflexivity|].
    apply list_elem_of_singleton in Hin as ->. vm_compute. reflexivity.
Defined.

(** On the example of the specification the returned match has the
    confidence of the returned alternative. *)
Lemma parse_result_consistent_witness :
  ∃ a m,
    parse Qltb two_alternatives two_commands = (Some m, Some a)
    ∧ a ∈ two_alternatives
    ∧ res_confidence m = alt_confidence a.
Proof.
  destruct (parse_result_consistent Qltb two_alternatives two_commands)
    as (a & Ha & Hin & Hm); [discriminate|].
  assert (Hfst : fst (parse Qltb two_alternatives two_commands)
                 = Some (result "CLOSE" (9 # 10))) by (vm_compute; reflexivity).
  exists a, (result "CLOSE" (9 # 10)). split; [|split].
  - destruct (parse Qltb two_alternatives two_commands) as [m' a'].
    cbn in Ha, Hfst. now subst.
  - exact Hin.
  - apply (Hm _ Hfst).
    repeat constructor; apply FuzzyCommand_copies_confidence.
Defined.

(** * Instances of the further properties *)

(** *** The tokenizer *)

Lemma normalizeInput_token_chars_witness :
  string_forall (λ c, negb (is_separator c) && (lower_char c =? c)%char)
    "settings" = true.
Proof.
  apply (normalizeInput_token_chars "Open, SETTINGS" "settings").
  vm_compute. right. left.
Defined.

Lemma normalizeInput_no_empty_token_witness :
  normalizeInput ".a  b," ≠ []
  ∧ ∀ t, t ∈ normalizeInput ".a  b," → t ≠ "".
Proof.
  destruct (normalizeInput_no_empty_token ".a  b,") as [H1 H2].
  split; [exact H1 | apply H2; reflexivity].
Defined.

Example normalizeInput_keeps_characters_example :
  String.concat "" (normalizeInput "Open: the Settings.") = "openthesettings".
Proof. reflexivity. Qed.

Lemma normalizeInput_same_text_witness :
  normalizeInput "Open: Settings" = normalizeInput "OPEN, settings".
Proof. apply normalizeInput_same_text. reflexivity. Defined.

(** *** FuzzyCommand *)

Lemma new_FuzzyCommand_set_semantics_witness :
  new_FuzzyCommand "SHOW" ["show"; "open"; "show"] ["settings"] true
  = show_settings.
Proof.
  apply new_FuzzyCommand_set_semantics; [|tauto].
  intros w. rewrite !elem_of_cons. tauto.
Defined.

Lemma dict_truthy_on_tokens_witness :
  dict_truthy (dict_of_list ["open"]) "constructor" = true
  ↔ "constructor" ∈ ["open"]
    ∨ "constructor" = "constructor" ∨ "constructor" = "__proto__".
Proof.
  apply (dict_truthy_on_tokens ["open"] "Open the Constructor").
  vm_compute. right. right. left.
Defined.

Lemma verbFirst_false_accepts_more_witness :
  FuzzyCommand_match open_settings_any_order (alternative "open settings" (1 # 2))
  = Some (result "OPEN" (1 # 2)).
Proof.
  apply (verbFirst_false_accepts_more "OPEN" ["open"] ["settings"]).
  vm_compute. reflexivity.
Defined.

Lemma match_survives_more_words_witness :
  FuzzyCommand_match open_settings
    (alternative "Please open the settings, now." (1 # 2))
  = Some (result "OPEN" (1 # 2)).
Proof.
  apply (match_survives_more_words open_settings
           (alternative "open settings" (9 # 10))
           (alternative "Please open the settings, now." (1 # 2))).
  - vm_compute.
    apply sublist_cons, sublist_skip, sublist_cons, sublist_skip,
      sublist_cons, sublist_nil.
  - vm_compute. discriminate.
Defined.

Lemma match_survives_more_vocabulary_witness :
  FuzzyCommand_match show_settings (alternative "open settings" (1 # 2))
  = Some (result "SHOW" (1 # 2)).
Proof.
  apply (match_survives_more_vocabulary "SHOW" ["open"] ["open"; "show"]
           ["settings"] ["settings"] true).
  - intros w Hw. apply list_elem_of_singleton in Hw as ->. left.
  - auto.
  - vm_compute. reflexivity.
Defined.

Example match_ignores_non_token_words_example :
  FuzzyCommand_match (new_FuzzyCommand "OPEN" ["Open"; "go to"] ["settings"] true)
    (alternative "Open settings" (1 # 2)) = None
  ∧ FuzzyCommand_match (new_FuzzyCommand "OPEN" ["Open"; "go to"] ["settings"] true)
      (alternative "go to settings" (1 # 2)) = None.
Proof. split; vm_compute; reflexivity. Qed.

(** *** parse *)

Lemma parse_without_matches_witness :
  parse Qltb two_alternatives [FuzzyCommand_Command empty_words]
  = parse Qltb two_alternatives [].
Proof.
  apply parse_without_matches.
  intros a command Ha Hc. apply list_elem_of_singleton in Hc as ->.
  apply elem_of_cons in Ha as [->|Ha]; [vm_compute; reflexivity|].
  apply list_elem_of_singleton in Ha as ->. vm_compute. reflexivity.
Defined.

Lemma parse_returns_best_match_witness :
  (∃ pre post,
      match_events two_alternatives two_commands
      = pre ++ (result "CLOSE" (9 # 10), alternative "close settings" (9 # 10))
               :: post
      ∧ Forall (λ e, Qltb (alt_confidence (snd e)) (9 # 10) = true) pre)
  ∧ ∀ a' command,
      a' ∈ two_alternatives → command ∈ two_commands →
      match_ command a' ≠ None →
      Qltb (9 # 10) (alt_confidence a') = false.
Proof.
  apply (parse_returns_best_match Qltb two_alternatives two_commands
           (result "CLOSE" (9 # 10)) (alternative "close settings" (9 # 10))
           Qltb_irrefl Qltb_trans Qltb_negtrans).
  - repeat constructor; apply FuzzyCommand_copies_confidence.
  - vm_compute. reflexivity.
Defined.

Lemma parse_drop_silent_command_witness :
  parse Qltb two_alternatives
    ([FuzzyCommand_Command open_settings]
       ++ FuzzyCommand_Command empty_words
       :: [FuzzyCommand_Command close_settings])
  = parse Qltb two_alternatives
      ([FuzzyCommand_Command open_settings]
         ++ [FuzzyCommand_Command close_settings]).
Proof.
  apply parse_drop_silent_command.
  intros a Ha.
  apply elem_of_cons in Ha as [->|Ha]; [vm_compute; reflexivity|].
  apply list_elem_of_singleton in Ha as ->. vm_compute. reflexivity.
Defined.

Lemma parse_returns_registered_command_witness :
  ∃ c a,
    Some (alternative "close settings" (9 # 10)) = Some a
    ∧ a ∈ two_alternatives
    ∧ c ∈ [open_settings; close_settings]
    ∧ FuzzyCommand_match c a = Some (result "CLOSE" (9 # 10))
    ∧ res_id (result "CLOSE" (9 # 10)) = fc_id c
    ∧ res_confidence (result "CLOSE" (9 # 10)) = alt_confidence a.
Proof.
  apply (parse_returns_registered_command Qltb two_alternatives
           [open_settings; close_settings]).
  vm_compute. reflexivity.
Defined.

(** *** The feedback list and the replay analytics *)

Example feedback_rows_example :
  issues (useFetchFeedbackInfiniteListData two_pages)
  = ["issue-1"; "issue-2"; "issue-3"]
  ∧ isRowLoaded (useFetchFeedbackInfiniteListData two_pages) 2 = true
  ∧ isRowLoaded (useFetchFeedbackInfiniteListData two_pages) 3 = false
  ∧ isRowLoaded (useFetchFeedbackInfiniteListData two_pages) (-1) = false.
Proof. repeat split. Qed.

Lemma feedback_row_of_page_witness :
  getRow (useFetchFeedbackInfiniteListData two_pages) 2 = Some "issue-3".
Proof.
  apply (feedback_row_of_page two_pages [(["issue-1"; "issue-2"], tt)]
           (["issue-3"], tt) [] 0 "issue-3"); reflexivity.
Defined.

Lemma replay_event_counts_witness :
  useLogReplayDataLoaded any_project tt loaded_replay = Some loaded_event
  ∧ fe_errors loaded_event + be_errors loaded_event
    = total_errors loaded_event.
Proof.
  assert (Hevent : useLogReplayDataLoaded any_project tt loaded_replay
                   = Some loaded_event) by reflexivity.
  split; [exact Hevent|].
  destruct (replay_event_counts any_project tt loaded_replay loaded_event
              Hevent) as (_ & reader & _ & _ & Hsum & _).
  exact Hsum.
Defined.
